(** * Last-commit-per-path resolution of caddy-git-server

    A shallow embedding of [getCommitTree], [getFileHashes] and
    [getLastCommitForPaths] (the Go functions behind the "tree" page of
    the git browser), followed by the properties of the traversal.

    The commit graph and the object store are reached through go-git's
    [commitgraph.CommitNode] and [object.Tree] interfaces, and the frontier
    is kept in a [binaryheap.Heap] of the gods library.  Both are external
    to the repository, so they are taken here as interfaces (type classes);
    every theorem holds for all their implementations, and concrete
    instances are given for the worked examples. *)

From stdpp Require Import gmap strings list fin_maps.
From Stdlib Require Import ZArith Lia Ascii.

Local Open Scope Z_scope.
Local Open Scope nat_scope.

(** ** Values of the Go program *)

(** [plumbing.Hash] is a 20-byte array compared with [==]; it is read here
    as the number it spells.  The zero value of the type is what a Go map
    yields for a missing key. *)
Definition Hash := N.
Definition ZeroHash : Hash := 0%N.

(** Go [error] values.  [object.ErrDirectoryNotFound] is the only one the
    code tells apart; any other failure (I/O, corrupt object, ...) is
    [ErrOther]. *)
Inductive error :=
  | ErrDirectoryNotFound
  | ErrEntryNotFound
  | ErrOther (msg : string).

#[global] Instance error_eq_dec : EqDecision error.
Proof. solve_decision. Defined.

(** A Go pair [(value, err)] where exactly one side is meaningful. *)
Inductive result (A : Type) :=
  | Ok (a : A)
  | Err (e : error).
Arguments Ok {A} a.
Arguments Err {A} e.

Definition is_Ok {A} (r : result A) : Prop :=
  match r with Ok _ => True | Err _ => False end.

(** [object.TreeEntry]: only [Hash] is read by the traversal. *)
Record TreeEntry := { Name : string; Mode : N; EntryHash : Hash }.

(** A Go slice, with the distinction between the nil slice and an empty
    slice that [x != nil] observes. *)
Inductive slice (A : Type) :=
  | nil_slice
  | slice_of (l : list A).
Arguments nil_slice {A}.
Arguments slice_of {A} l.

Definition elems {A} (s : slice A) : list A :=
  match s with nil_slice => [] | slice_of l => l end.
(** [make([]T, 0, n)]: empty, but not nil. *)
Definition make {A} : slice A := slice_of [].
Definition append {A} (s : slice A) (x : A) : slice A := slice_of (elems s ++ [x]).
Definition len {A} (s : slice A) : nat := length (elems s).
Definition is_nil {A} (s : slice A) : bool :=
  match s with nil_slice => true | slice_of _ => false end.

(** Reading a [map[string]plumbing.Hash]: a missing key, and any key of a
    nil map, reads as [ZeroHash].  A nil map is therefore modelled by [∅]. *)
Definition hash_at (m : gmap string Hash) (path : string) : Hash :=
  default ZeroHash (m !! path).

(** ** The external interfaces *)

(** [commitgraph.CommitNode] (methods [CommitTime], [NumParents],
    [ParentNode], [Tree], [Commit]) and [object.Tree] (field [Hash], methods
    [Tree] and [FindEntry]).  [CommitTime] is an instant, compared with
    [Before]. *)
Class ObjectStore (Node Tree Commit : Type) := {
  CommitTime : Node -> Z;
  NumParents : Node -> nat;
  ParentNode : Node -> nat -> result Node;
  CommitNode_Tree : Node -> result Tree;
  CommitNode_Commit : Node -> result Commit;
  Tree_Hash : Tree -> Hash;
  Tree_Tree : Tree -> string -> result Tree;
  Tree_FindEntry : Tree -> string -> result TreeEntry
}.

(** [binaryheap.Heap] built by [binaryheap.NewWith cmp].  [Values] lists the
    stored elements; the laws say that [Push] adds one element, [Pop] fails
    exactly on the empty heap and otherwise removes one element that the
    comparator puts before (or level with) all the others. *)
Class BinaryHeap (E : Type) (cmp : E -> E -> Z) := {
  Heap : Type;
  NewWith : Heap;
  Push : E -> Heap -> Heap;
  Pop : Heap -> option (E * Heap);
  Values : Heap -> list E;
  Values_NewWith : Values NewWith = [];
  Values_Push e h : Values (Push e h) ≡ₚ e :: Values h;
  Pop_None h : Pop h = None -> Values h = [];
  Pop_Some h e h' : Pop h = Some (e, h') -> Values h ≡ₚ e :: Values h';
  Pop_first h e h' x : Pop h = Some (e, h') -> x ∈ Values h' -> (cmp e x <= 0)%Z
}.

(** ** The program *)

Record commitAndPaths (Node : Type) := {
  commit : Node;
  (* Paths that are still on the branch represented by commit *)
  paths : list string;
  (* Set of hashes for the paths *)
  hashes : gmap string Hash
}.
Arguments commit {Node} c.
Arguments paths {Node} c.
Arguments hashes {Node} c.
Arguments Build_commitAndPaths {Node} commit paths hashes.

Section LastCommit.
Context {Node Tree Commit : Type} {store : ObjectStore Node Tree Commit}.

Definition getCommitTree (c : Node) (treePath : string) : result Tree :=
  match CommitNode_Tree c with
  | Err e => Err e
  | Ok tree =>
      if decide (treePath ≠ "")
      then match Tree_Tree tree treePath with
           | Err e => Err e
           | Ok tree' => Ok tree'
           end
      else Ok tree
  end.

(** The body of [for _, path := range paths] in [getFileHashes]. *)
Definition addFileHash (tree : Tree) (hashes : gmap string Hash) (path : string)
  : gmap string Hash :=
  if decide (path ≠ "")
  then match Tree_FindEntry tree path with
       | Ok entry => <[path := EntryHash entry]> hashes
       | Err _ => hashes
       end
  else <[path := Tree_Hash tree]> hashes.

Definition getFileHashes (c : Node) (treePath : string) (paths : list string)
  : result (gmap string Hash) :=
  match getCommitTree c treePath with
  | Err ErrDirectoryNotFound =>
      (* The whole tree didn't exist, so return empty map *)
      Ok ∅
  | Err e => Err e
  | Ok tree => Ok (foldl (addFileHash tree) ∅ paths)
  end.

(** The comparator handed to [binaryheap.NewWith]. *)
Definition byCommitTime (a b : commitAndPaths Node) : Z :=
  if (CommitTime (commit a) <? CommitTime (commit b))%Z then 1%Z else (-1)%Z.

Context {frontier : BinaryHeap (commitAndPaths Node) byCommitTime}.

(** [for i := 0; i < numParents; i++]: the parents are loaded in index
    order and the loop is left at the first [ParentNode] that fails.
    [n] counts the indices still to visit. *)
Fixpoint loadParentsFrom (c : Node) (i n : nat) : list Node :=
  match n with
  | O => []
  | S n' =>
      match ParentNode c i with
      | Err _ => []
      | Ok parent => parent :: loadParentsFrom c (S i) n'
      end
  end.

Definition loadParents (c : Node) : list Node :=
  loadParentsFrom c 0 (NumParents c).

(** One pass of [for i, path := range current.paths] under a parent. *)
Definition markUnchanged (parentHash currentHashes : gmap string Hash)
    (paths : list string) (pathUnchanged : list bool) : list bool :=
  zip_with (fun path u =>
              if decide (hash_at parentHash path = hash_at currentHashes path)
              then true else u)
           paths pathUnchanged.

(** [for j, parent := range parents]: fills [parentHashes] and
    [pathUnchanged].  When [getFileHashes] fails the loop is left; the slot
    of that parent holds the nil map the call returned, and the slots of
    the later parents were never written. *)
Fixpoint examineParents (treePath : string) (current : commitAndPaths Node)
    (parents : list Node) (pathUnchanged : list bool)
  : list (gmap string Hash) * list bool :=
  match parents with
  | [] => ([], pathUnchanged)
  | parent :: rest =>
      match getFileHashes parent treePath (paths current) with
      | Err _ => (replicate (length parents) ∅, pathUnchanged)
      | Ok parentHash =>
          let pathUnchanged' :=
            markUnchanged parentHash (hashes current) (paths current) pathUnchanged in
          let '(parentHashes, pathUnchanged'') :=
            examineParents treePath current rest pathUnchanged' in
          (parentHash :: parentHashes, pathUnchanged'')
      end
  end.

(** The second [for i, path := range current.paths]: a path without a
    result yet either stays on the branch or gets [current.commit]. *)
Definition classifyPath (currentCommit : Node)
    (acc : gmap string Node * slice string) (pu : string * bool)
  : gmap string Node * slice string :=
  let '(resultNodes, remainingPaths) := acc in
  let '(path, unchanged) := pu in
  match resultNodes !! path with
  | None =>
      if unchanged
      then (resultNodes, append remainingPaths path)
      else (<[path := currentCommit]> resultNodes, remainingPaths)
  | Some _ => (resultNodes, remainingPaths)
  end.

Definition classifyPaths (current : commitAndPaths Node) (pathUnchanged : list bool)
    (resultNodes : gmap string Node) : gmap string Node * slice string :=
  foldl (classifyPath (commit current)) (resultNodes, nil_slice)
        (zip (paths current) pathUnchanged).

(** [for _, path := range remainingPaths] under parent [j]. *)
Definition splitPath (parentHash currentHashes : gmap string Hash)
    (acc : slice string * slice string) (path : string)
  : slice string * slice string :=
  let '(remainingPathsForParent, newRemainingPaths) := acc in
  if decide (hash_at parentHash path = hash_at currentHashes path)
  then (append remainingPathsForParent path, newRemainingPaths)
  else (remainingPathsForParent, append newRemainingPaths path).

(** [for j, parent := range parents] of the push phase. *)
Fixpoint pushParents (current : commitAndPaths Node)
    (parents : list (Node * gmap string Hash)) (remainingPaths : slice string)
    (heap : Heap) : Heap :=
  match parents with
  | [] => heap
  | (parent, parentHash) :: rest =>
      let '(remainingPathsForParent, newRemainingPaths) :=
        foldl (splitPath parentHash (hashes current)) (make, make)
              (elems remainingPaths) in
      let heap' :=
        if negb (is_nil remainingPathsForParent)
        then Push {| commit := parent;
                     paths := elems remainingPathsForParent;
                     hashes := parentHash |} heap
        else heap in
      if decide (len newRemainingPaths = 0)
      then heap'
      else pushParents current rest newRemainingPaths heap'
  end.

(** The body of the [for] loop, after a successful [heap.Pop()]. *)
Definition iteration (treePath : string) (current : commitAndPaths Node)
    (heap : Heap) (resultNodes : gmap string Node) : Heap * gmap string Node :=
  let parents := loadParents (commit current) in
  let '(parentHashes, pathUnchanged) :=
    examineParents treePath current parents
                   (replicate (length (paths current)) false) in
  let '(resultNodes', remainingPaths) :=
    classifyPaths current pathUnchanged resultNodes in
  let heap' :=
    if decide (0 < len remainingPaths)
    then pushParents current (zip parents parentHashes) remainingPaths heap
    else heap in
  (heap', resultNodes').

(** The [for] loop.  [fuel] bounds the number of iterations; [None] means
    the bound was reached with the heap still non-empty. *)
Fixpoint traverse (fuel : nat) (treePath : string) (heap : Heap)
    (resultNodes : gmap string Node) : option (gmap string Node) :=
  match fuel with
  | O => None
  | S fuel' =>
      match Pop heap with
      | None => Some resultNodes
      | Some (current, heap') =>
          let '(heap'', resultNodes') := iteration treePath current heap' resultNodes in
          traverse fuel' treePath heap'' resultNodes'
      end
  end.

(** Post-processing: every node of [resultNodes] is turned into an
    [*object.Commit]; the first failure is returned.  Go ranges over the map
    in an unspecified order, the model in the order of [map_to_list]. *)
Fixpoint postProcess (entries : list (string * Node)) (result0 : gmap string Commit)
  : result (gmap string Commit) :=
  match entries with
  | [] => Ok result0
  | (path, commitNode) :: rest =>
      match CommitNode_Commit commitNode with
      | Err e => Err e
      | Ok cm => postProcess rest (<[path := cm]> result0)
      end
  end.

Definition getLastCommitForPaths (fuel : nat) (c : Node) (treePath : string)
    (paths : list string) : option (result (gmap string Commit)) :=
  match getFileHashes c treePath paths with
  | Err e => Some (Err e)
  | Ok initialHashes =>
      (* Start search from the root commit and with full set of paths *)
      let heap := Push {| commit := c; paths := paths; hashes := initialHashes |}
                       NewWith in
      match traverse fuel treePath heap ∅ with
      | None => None
      | Some resultNodes => Some (postProcess (map_to_list resultNodes) ∅)
      end
  end.

End LastCommit.

(** ** A concrete store and a concrete heap

    Used by the worked examples: commits are numbered, a repository is the
    list of its commits, and the heap is a list from which [Pop] takes the
    element the comparator puts first. *)

Module Concrete.

Record exDir := { ed_hash : Hash; ed_files : list (string * Hash) }.

Record exTree := {
  et_hash : Hash;
  et_files : list (string * Hash);
  et_dirs : list (string * exDir)
}.

Record exCommit := {
  ec_time : Z;
  ec_parents : list (result nat);
  ec_tree : result exTree
}.

Fixpoint assoc {A} (k : string) (l : list (string * A)) : option A :=
  match l with
  | [] => None
  | (k', v) :: l' => if decide (k = k') then Some v else assoc k l'
  end.

Definition exStore (repo : list exCommit) : ObjectStore nat exTree nat := {|
  CommitTime c := from_option ec_time 0%Z (repo !! c);
  NumParents c := from_option (fun r => length (ec_parents r)) 0 (repo !! c);
  ParentNode c i :=
    match repo !! c with
    | Some r => default (Err (ErrOther "no such parent")) (ec_parents r !! i)
    | None => Err (ErrOther "no such commit")
    end;
  CommitNode_Tree c :=
    match repo !! c with
    | Some r => ec_tree r
    | None => Err (ErrOther "no such commit")
    end;
  CommitNode_Commit c :=
    match repo !! c with
    | Some _ => Ok c
    | None => Err (ErrOther "no such commit")
    end;
  Tree_Hash := et_hash;
  Tree_Tree t path :=
    match assoc path (et_dirs t) with
    | Some d => Ok {| et_hash := ed_hash d; et_files := ed_files d; et_dirs := [] |}
    | None => Err ErrDirectoryNotFound
    end;
  Tree_FindEntry t path :=
    match assoc path (et_files t) with
    | Some h => Ok {| Name := path; Mode := 33188%N; EntryHash := h |}
    | None =>
        match assoc path (et_dirs t) with
        | Some d => Ok {| Name := path; Mode := 16384%N; EntryHash := ed_hash d |}
        | None => Err ErrEntryNotFound
        end
    end
|}.

Section ListHeap.
Context {E : Type} (cmp : E -> E -> Z).

Fixpoint popFirst (l : list E) : option (E * list E) :=
  match l with
  | [] => None
  | x :: l' =>
      match popFirst l' with
      | None => Some (x, [])
      | Some (y, r) =>
          if (0 <? cmp x y)%Z then Some (y, x :: r) else Some (x, l')
      end
  end.

Lemma popFirst_None l : popFirst l = None -> l = [].
Proof.
  destruct l as [|x l]; [done|]. simpl.
  destruct (popFirst l) as [[y r]|]; [|done]. by case_match.
Qed.

Lemma popFirst_Some l e r : popFirst l = Some (e, r) -> l ≡ₚ e :: r.
Proof.
  revert e r. induction l as [|x l IH]; intros e r; simpl; [done|].
  destruct (popFirst l) as [[y r']|] eqn:Hp.
  - specialize (IH _ _ eq_refl). case_match; intros [= <- <-]; [|done].
    rewrite IH. apply Permutation_swap.
  - apply popFirst_None in Hp as ->. by intros [= <- <-].
Qed.
End ListHeap.

Section Instance.
Context {Node Tree Commit : Type} {store : ObjectStore Node Tree Commit}.

Lemma byCommitTime_le (a b : commitAndPaths Node) :
  (byCommitTime a b <= 0)%Z <-> (CommitTime (commit b) <= CommitTime (commit a))%Z.
Proof. unfold byCommitTime. case_match; lia. Qed.

Lemma popFirst_first (l : list (commitAndPaths Node)) e r x :
  popFirst byCommitTime l = Some (e, r) -> x ∈ r -> (byCommitTime e x <= 0)%Z.
Proof.
  revert e r x. induction l as [|y l IH]; intros e r x; simpl; [done|].
  destruct (popFirst byCommitTime l) as [[z r']|] eqn:Hp.
  - destruct (0 <? byCommitTime y z)%Z eqn:Hc; intros [= <- <-] Hx.
    + apply elem_of_cons in Hx as [->|Hx]; [|by eapply IH].
      apply Z.ltb_lt in Hc. apply byCommitTime_le.
      unfold byCommitTime in Hc. case_match; lia.
    + apply Z.ltb_ge in Hc. apply byCommitTime_le in Hc.
      apply popFirst_Some in Hp as Hperm. rewrite Hperm in Hx.
      apply elem_of_cons in Hx as [->|Hx]; [by apply byCommitTime_le|].
      specialize (IH _ _ _ eq_refl Hx).
      apply byCommitTime_le in IH. apply byCommitTime_le. lia.
  - intros [= <- <-] Hx. by apply elem_of_nil in Hx.
Qed.

#[export] Instance listHeap : BinaryHeap (commitAndPaths Node) byCommitTime := {|
  Heap := list (commitAndPaths Node);
  NewWith := [];
  Push e h := h ++ [e];
  Pop := popFirst byCommitTime;
  Values h := h;
  Values_NewWith := eq_refl;
  Values_Push e h := Permutation_sym (Permutation_cons_append h e);
  Pop_None := popFirst_None byCommitTime;
  Pop_Some := popFirst_Some byCommitTime;
  Pop_first := popFirst_first
|}.
End Instance.

Definition file_tree (h : Hash) (files : list (string * Hash)) : result exTree :=
  Ok {| et_hash := h; et_files := files; et_dirs := [] |}.

(** The linear history of the specification: [0] (root) creates [a.txt],
    [1] adds [b.txt], [2] rewrites [a.txt]. *)
Definition repo_linear : list exCommit :=
  [ {| ec_time := 10; ec_parents := [];
       ec_tree := file_tree 100%N [("a.txt", 1%N)] |};
    {| ec_time := 20; ec_parents := [Ok 0];
       ec_tree := file_tree 101%N [("a.txt", 1%N); ("b.txt", 2%N)] |};
    {| ec_time := 30; ec_parents := [Ok 1];
       ec_tree := file_tree 102%N [("a.txt", 3%N); ("b.txt", 2%N)] |} ].

(** Two roots [0] and [1] and their merge [2]; [x] of the merge is the
    [x] of the second parent. *)
Definition repo_merge : list exCommit :=
  [ {| ec_time := 10; ec_parents := [];
       ec_tree := file_tree 100%N [("x", 1%N)] |};
    {| ec_time := 20; ec_parents := [];
       ec_tree := file_tree 101%N [("x", 2%N)] |};
    {| ec_time := 30; ec_parents := [Ok 0; Ok 1];
       ec_tree := file_tree 102%N [("x", 2%N)] |} ].

(** A store with failures: the tree of [0] cannot be read, and neither can
    the parent of [2]. *)
Definition repo_err : list exCommit :=
  [ {| ec_time := 10; ec_parents := [];
       ec_tree := Err (ErrOther "i/o") |};
    {| ec_time := 20; ec_parents := [Ok 0];
       ec_tree := file_tree 101%N [("a.txt", 1%N)] |};
    {| ec_time := 30; ec_parents := [Err (ErrOther "i/o")];
       ec_tree := file_tree 102%N [("a.txt", 1%N)] |} ].

(** A tree with a subdirectory. *)
Definition repo_dirs : list exCommit :=
  [ {| ec_time := 10; ec_parents := [];
       ec_tree := Ok {| et_hash := 100%N; et_files := [("README", 7%N)];
                        et_dirs := [("src", {| ed_hash := 50%N;
                                               ed_files := [("main.go", 8%N)] |})] |} |} ].

End Concrete.

(** ** Properties

    The properties are proved from the laws of [BinaryHeap] that say what a
    heap contains; the order in which [Pop] hands out the entries (law
    [Pop_first]) is never used, so they hold whatever entry is popped
    first. *)

Section Properties.
Context {Node Tree Commit : Type} {store : ObjectStore Node Tree Commit}.
Context {frontier : BinaryHeap (commitAndPaths Node) byCommitTime}.

Implicit Types (c q : Node) (cur e : commitAndPaths Node).
Implicit Types (tp p : string) (ps : list string).
Implicit Types (m hs : gmap string Hash) (rn : gmap string Node).
Implicit Types (hp : list (Node * gmap string Hash)).

(** *** Notions used in the statements *)

(** What a tree holds for a path: its own hash for the empty path, the hash
    of the entry [FindEntry] finds otherwise, nothing when [FindEntry]
    fails. *)
Definition entryHash (tree : Tree) p : option Hash :=
  if decide (p = "") then Some (Tree_Hash tree)
  else match Tree_FindEntry tree p with
       | Ok entry => Some (EntryHash entry)
       | Err _ => None
       end.

(** The hash of one path at a commit, as [getFileHashes] computes it: the
    zero hash stands for a path (or a subtree) that is not there. *)
Definition hashOf tp c p : result Hash :=
  match getFileHashes c tp [p] with
  | Ok m => Ok (hash_at m p)
  | Err e => Err e
  end.

(** The parents whose hashes the examination loop obtained: the loaded
    parents up to the first one for which [getFileHashes] fails. *)
Fixpoint hashedParents tp ps (parents : list Node) : list (Node * gmap string Hash) :=
  match parents with
  | [] => []
  | q :: rest =>
      match getFileHashes q tp ps with
      | Err _ => []
      | Ok m => (q, m) :: hashedParents tp ps rest
      end
  end.

(** [pathUnchanged] of a path: some examined parent has the hash the
    current entry has. *)
Definition unchangedToward hs hp p : bool :=
  existsb (fun qm => bool_decide (hash_at qm.2 p = hash_at hs p)) hp.

(** The entries the push phase builds, parent after parent, until no path
    is left over. *)
Fixpoint parentEntries hs hp (rem : list string) : list (commitAndPaths Node) :=
  match hp with
  | [] => []
  | (q, m) :: rest =>
      {| commit := q;
         paths := filter (fun p => hash_at m p = hash_at hs p) rem;
         hashes := m |}
      :: match filter (fun p => hash_at m p ≠ hash_at hs p) rem with
         | [] => []
         | rem' => parentEntries hs rest rem'
         end
  end.

(** The examined parents of a popped entry. *)
Definition stepHashed tp cur : list (Node * gmap string Hash) :=
  hashedParents tp (paths cur) (loadParents (commit cur)).

(** [remainingPaths] of an iteration: the paths of the popped entry that
    have no result and are unchanged toward an examined parent. *)
Definition stepRemaining tp cur rn : list string :=
  filter (fun p => rn !! p = None /\
                   unchangedToward (hashes cur) (stepHashed tp cur) p = true)
         (paths cur).

(** The entries an iteration pushes, in the order of the parents: none when
    no path remains. *)
Definition stepEntries tp cur rn : list (commitAndPaths Node) :=
  match stepRemaining tp cur rn with
  | [] => []
  | rem => parentEntries (hashes cur) (stepHashed tp cur) rem
  end.

(** [resultNodes] after an iteration. *)
Definition stepResults tp cur rn : gmap string Node :=
  (foldl (classifyPath (commit cur)) (rn, nil_slice)
         (zip (paths cur)
              (unchangedToward (hashes cur) (stepHashed tp cur) <$> paths cur))).1.

(** [d] is [c] or is reached from [c] through parent edges. *)
Inductive ancestorOrSelf : Node -> Node -> Prop :=
  | ancestor_self c : ancestorOrSelf c c
  | ancestor_parent c i q d :
      i < NumParents c -> ParentNode c i = Ok q ->
      ancestorOrSelf q d -> ancestorOrSelf c d.

(** The states of the loop of [getLastCommitForPaths c0 tp ps0]: the heap
    and [resultNodes] at the top of the [for], before [heap.Pop()]. *)
Inductive reached (c0 : Node) tp ps0 : Heap -> gmap string Node -> Prop :=
  | reached_start m :
      getFileHashes c0 tp ps0 = Ok m ->
      reached c0 tp ps0
              (Push {| commit := c0; paths := ps0; hashes := m |} NewWith) ∅
  | reached_iteration heap rn cur heap' :
      reached c0 tp ps0 heap rn ->
      Pop heap = Some (cur, heap') ->
      reached c0 tp ps0 (iteration tp cur heap' rn).1 (iteration tp cur heap' rn).2.

(** [j] is the first parent index of [c] at which path [p] has hash [h]:
    the parents before [j] load, their trees can be read, and they have
    another hash for [p]. *)
Definition firstMatch tp c p (h : Hash) (j : nat) q : Prop :=
  j < NumParents c /\ ParentNode c j = Ok q /\ hashOf tp q p = Ok h /\
  forall k, k < j ->
            exists qk hk, ParentNode c k = Ok qk /\ hashOf tp qk p = Ok hk /\ hk ≠ h.

(** The traversal branch of [p] with hash [h]: from a commit to its first
    matching parent, any number of times. *)
Inductive branch tp p (h : Hash) : Node -> Node -> Prop :=
  | branch_here c : branch tp p h c c
  | branch_parent c j q d :
      firstMatch tp c p h j q -> branch tp p h q d -> branch tp p h c d.

(** *** [getFileHashes] *)

Lemma addFileHash_lookup tree m path p :
  addFileHash tree m path !! p =
    if decide (p = path)
    then match entryHash tree p with Some h => Some h | None => m !! p end
    else m !! p.
Proof.
  unfold addFileHash, entryHash.
  destruct (Tree_FindEntry tree path) eqn:Hf;
    repeat case_decide; simplify_eq; simplify_map_eq; try done.
  all: by rewrite Hf.
Qed.

Lemma foldl_addFileHash_lookup tree ps m p :
  foldl (addFileHash tree) m ps !! p =
    if decide (p ∈ ps)
    then match entryHash tree p with Some h => Some h | None => m !! p end
    else m !! p.
Proof.
  revert m. induction ps as [|path ps IH]; intros m; cbn [foldl].
  - destruct (decide (p ∈ [])) as [Hin|]; [by apply elem_of_nil in Hin|done].
  - rewrite IH, addFileHash_lookup.
    destruct (decide (p = path)) as [->|Hne].
    + destruct (decide (path ∈ path :: ps)) as [_|Hn];
        [|by destruct Hn; apply list_elem_of_here].
      destruct (entryHash tree path); by destruct (decide (path ∈ ps)).
    + destruct (decide (p ∈ ps)) as [Hin|Hin];
        destruct (decide (p ∈ path :: ps)) as [Hin'|Hin']; try done.
      * destruct Hin'. by apply list_elem_of_further.
      * apply elem_of_cons in Hin' as [?|?]; done.
Qed.

(** What a map of hashes [m] holds for the requested paths [ps] looked up
    in the tree [tree] of the store: the empty path, if requested, has the
    hash of the tree itself; a requested path that [FindEntry] finds has the
    hash of its entry; a path that [FindEntry] does not find, and a path
    that was not requested, have no entry. *)
Definition hashesOfTree (tree : Tree) ps m : Prop :=
  ("" ∈ ps -> m !! "" = Some (Tree_Hash tree)) /\
  (forall p entry, p ∈ ps -> p ≠ "" -> Tree_FindEntry tree p = Ok entry ->
                   m !! p = Some (EntryHash entry)) /\
  (forall p err, p ≠ "" -> Tree_FindEntry tree p = Err err -> m !! p = None) /\
  (forall p, p ∉ ps -> m !! p = None).

Lemma foldl_hashesOfTree tree ps :
  hashesOfTree tree ps (foldl (addFileHash tree) ∅ ps).
Proof.
  repeat split.
  - intros Hin. rewrite foldl_addFileHash_lookup.
    destruct (decide ("" ∈ ps)); [|done]. unfold entryHash.
    by destruct (decide ("" = "")).
  - intros p entry Hin Hne Hfind. rewrite foldl_addFileHash_lookup.
    destruct (decide (p ∈ ps)); [|done]. unfold entryHash.
    destruct (decide (p = "")); [done|]. by rewrite Hfind.
  - intros p err Hne Hfind. rewrite foldl_addFileHash_lookup.
    unfold entryHash. destruct (decide (p = "")); [done|]. rewrite Hfind.
    by destruct (decide (p ∈ ps)).
  - intros p Hnin. rewrite foldl_addFileHash_lookup.
    by destruct (decide (p ∈ ps)).
Qed.

(** C9. The contract of [getFileHashes], in terms of what the store answers
    ([CommitNode.Tree], [Tree.Tree], [Tree.FindEntry] and the hash of a
    tree).  When the tree of the commit can be read: for the empty subtree
    path the result is a map that holds the requested paths as they are in
    the tree of the commit itself; for another subtree path that
    [Tree.Tree] finds, a map that holds them as they are in the subtree
    found; when [Tree.Tree] answers [ErrDirectoryNotFound], the empty map
    and no error; any other error of [Tree.Tree] is returned.  When the tree
    of the commit cannot be read, the error is returned (the empty map if it
    is [ErrDirectoryNotFound]). *)
Theorem getFileHashes_contract c tp ps :
  (forall root, CommitNode_Tree c = Ok root -> tp = "" ->
     exists m, getFileHashes c tp ps = Ok m /\ hashesOfTree root ps m) /\
  (forall root sub, CommitNode_Tree c = Ok root -> tp ≠ "" ->
     Tree_Tree root tp = Ok sub ->
     exists m, getFileHashes c tp ps = Ok m /\ hashesOfTree sub ps m) /\
  (forall root, CommitNode_Tree c = Ok root -> tp ≠ "" ->
     Tree_Tree root tp = Err ErrDirectoryNotFound ->
     getFileHashes c tp ps = Ok ∅) /\
  (forall root err, CommitNode_Tree c = Ok root -> tp ≠ "" ->
     Tree_Tree root tp = Err err -> err ≠ ErrDirectoryNotFound ->
     getFileHashes c tp ps = Err err) /\
  (forall err, CommitNode_Tree c = Err err ->
     getFileHashes c tp ps
     = match err with ErrDirectoryNotFound => Ok ∅ | _ => Err err end).
Proof.
  unfold getFileHashes, getCommitTree. repeat apply conj.
  - intros root -> ->. destruct (decide ("" ≠ "")); [done|].
    eexists. split; [done|]. apply foldl_hashesOfTree.
  - intros root sub -> Htp Hsub. destruct (decide (tp ≠ "")); [|done].
    rewrite Hsub. eexists. split; [done|]. apply foldl_hashesOfTree.
  - intros root -> Htp Hsub. destruct (decide (tp ≠ "")); [|done].
    by rewrite Hsub.
  - intros root err -> Htp Hsub Herr. destruct (decide (tp ≠ "")); [|done].
    rewrite Hsub. by destruct err.
  - intros err ->. by destruct err.
Qed.

(** Whether [getFileHashes] fails only depends on the commit and the
    subtree, never on the paths. *)
Lemma getFileHashes_Ok_paths c tp ps ps' m :
  getFileHashes c tp ps = Ok m -> exists m', getFileHashes c tp ps' = Ok m'.
Proof.
  unfold getFileHashes. destruct (getCommitTree c tp) as [t|[]]; eauto; done.
Qed.

Lemma getFileHashes_hashOf c tp ps m p :
  getFileHashes c tp ps = Ok m -> p ∈ ps -> hashOf tp c p = Ok (hash_at m p).
Proof.
  unfold hashOf, getFileHashes.
  destruct (getCommitTree c tp) as [t|[]]; intros [= <-] Hin; try done.
  f_equal. unfold hash_at. rewrite !foldl_addFileHash_lookup.
  destruct (decide (p ∈ ps)); [|done].
  destruct (decide (p ∈ [p])) as [_|Hn]; [done|].
  destruct Hn. apply list_elem_of_here.
Qed.

(** *** Loading the parents *)

Lemma loadParentsFrom_lookup c i n j q :
  loadParentsFrom c i n !! j = Some q -> j < n /\ ParentNode c (i + j) = Ok q.
Proof.
  revert i j. induction n as [|n IH]; intros i j; simpl; [done|].
  destruct (ParentNode c i) as [parent|] eqn:Hp; [|done].
  destruct j as [|j]; simpl.
  - intros [= <-]. rewrite Nat.add_0_r. split; [lia|done].
  - intros Hj. apply IH in Hj as [? Hj].
    split; [lia|]. by replace (i + S j) with (S i + j) by lia.
Qed.

Lemma loadParents_lookup c j q :
  loadParents c !! j = Some q -> j < NumParents c /\ ParentNode c j = Ok q.
Proof. apply (loadParentsFrom_lookup c 0). Qed.

Lemma loadParentsFrom_length c i n : length (loadParentsFrom c i n) <= n.
Proof.
  revert i. induction n as [|n IH]; intros i; simpl; [done|].
  destruct (ParentNode c i); simpl; [|lia]. specialize (IH (S i)). lia.
Qed.

Lemma loadParents_length c : length (loadParents c) <= NumParents c.
Proof. apply loadParentsFrom_length. Qed.

Lemma loadParentsFrom_lookup_Some c i n j q :
  j < n ->
  (forall k, k < j -> is_Ok (ParentNode c (i + k))) ->
  ParentNode c (i + j) = Ok q ->
  loadParentsFrom c i n !! j = Some q.
Proof.
  revert i j. induction n as [|n IH]; intros i j Hj Hk Hq; [lia|]. simpl.
  destruct j as [|j].
  - rewrite Nat.add_0_r in Hq. by rewrite Hq.
  - specialize (Hk 0 ltac:(lia)) as Hk0. rewrite Nat.add_0_r in Hk0.
    destruct (ParentNode c i) as [parent|]; [|done]. simpl.
    apply IH; [lia| |by replace (S i + j) with (i + S j) by lia].
    intros k Hlt. replace (S i + k) with (i + S k) by lia. apply Hk. lia.
Qed.

Lemma loadParents_lookup_Some c j q :
  j < NumParents c ->
  (forall k, k < j -> is_Ok (ParentNode c k)) ->
  ParentNode c j = Ok q ->
  loadParents c !! j = Some q.
Proof. intros. by apply loadParentsFrom_lookup_Some. Qed.

(** *** One iteration of the loop, in closed form *)

Lemma examineParents_spec tp cur parents pu :
  examineParents tp cur parents pu =
    ((snd <$> hashedParents tp (paths cur) parents)
       ++ replicate (length parents - length (hashedParents tp (paths cur) parents)) ∅,
     foldl (fun pu qm => markUnchanged qm.2 (hashes cur) (paths cur) pu) pu
           (hashedParents tp (paths cur) parents)).
Proof.
  revert pu. induction parents as [|q rest IH]; intros pu; [done|].
  cbn [examineParents hashedParents].
  destruct (getFileHashes q tp (paths cur)) as [m|err]; [|done].
  by rewrite IH.
Qed.

(** [parentHashes] has one slot per loaded parent, as [make] allots them. *)
Lemma examineParents_length tp cur parents pu :
  length (examineParents tp cur parents pu).1 = length parents.
Proof.
  revert pu. induction parents as [|q rest IH]; intros pu; [done|].
  cbn [examineParents]. destruct (getFileHashes q tp (paths cur)) as [m|err].
  - specialize (IH (markUnchanged m (hashes cur) (paths cur) pu)).
    destruct (examineParents tp cur rest _). cbn in *. by rewrite IH.
  - cbn. by rewrite length_replicate.
Qed.

Lemma markUnchanged_fmap m hs ps (f : string -> bool) :
  markUnchanged m hs ps (f <$> ps) =
    (fun p => bool_decide (hash_at m p = hash_at hs p) || f p) <$> ps.
Proof.
  unfold markUnchanged. induction ps as [|p ps IH]; [done|].
  cbn. rewrite IH. f_equal. by case_decide; case_bool_decide.
Qed.

Lemma foldl_markUnchanged hs ps hp (f : string -> bool) :
  foldl (fun pu qm => markUnchanged qm.2 hs ps pu) (f <$> ps) hp =
    (fun p => f p || unchangedToward hs hp p) <$> ps.
Proof.
  revert f. induction hp as [|[q m] hp IH]; intros f; cbn [foldl].
  - apply list_fmap_ext. intros _ p _. by rewrite orb_false_r.
  - rewrite markUnchanged_fmap, IH. apply list_fmap_ext. intros _ p _.
    cbn. by destruct (bool_decide _), (f p).
Qed.

Lemma replicate_false_fmap ps :
  replicate (length ps) false = (fun _ => false) <$> ps.
Proof. induction ps; [done|]. cbn. by f_equal. Qed.

Lemma classifyPaths_spec c ps (f : string -> bool) rn s :
  (forall p n,
      (foldl (classifyPath c) (rn, s) (zip ps (f <$> ps))).1 !! p = Some n <->
      rn !! p = Some n \/ (rn !! p = None /\ n = c /\ p ∈ ps /\ f p = false))
  /\ elems (foldl (classifyPath c) (rn, s) (zip ps (f <$> ps))).2 =
      elems s ++ filter (fun p => rn !! p = None /\ f p = true) ps.
Proof.
  revert rn s. induction ps as [|p0 ps IH]; intros rn s.
  - split; [|by rewrite app_nil_r]. intros p n. cbn.
    split; [by left|]. intros [?|(_ & _ & []%elem_of_nil & _)]; done.
  - cbn [fmap list_fmap zip zip_with foldl classifyPath].
    destruct (rn !! p0) as [n0|] eqn:Hp0; [|destruct (f p0) eqn:Hf].
    + destruct (IH rn s) as [IH1 IH2]. split.
      * intros p n. rewrite IH1. rewrite elem_of_cons. intuition (subst; congruence).
      * rewrite IH2. rewrite filter_cons_False; [done|]. intros [? _]. congruence.
    + destruct (IH rn (append s p0)) as [IH1 IH2]. split.
      * intros p n. rewrite IH1. rewrite elem_of_cons. intuition (subst; congruence).
      * rewrite IH2. unfold append. cbn [elems]. rewrite filter_cons_True by done.
        by rewrite <- app_assoc.
    + destruct (IH (<[p0 := c]> rn) s) as [IH1 IH2]. split.
      * intros p n. rewrite IH1. rewrite elem_of_cons.
        destruct (decide (p = p0)) as [->|Hne].
        -- rewrite lookup_insert_eq. intuition (subst; congruence).
        -- rewrite lookup_insert_ne by done. intuition (subst; congruence).
      * rewrite IH2. rewrite filter_cons_False by (intros [_ ?]; congruence).
        f_equal. apply list_filter_iff. intros p.
        destruct (decide (p = p0)) as [->|Hne].
        -- rewrite lookup_insert_eq. split; intros [? ?]; congruence.
        -- by rewrite lookup_insert_ne.
Qed.

Lemma foldl_splitPath m hs a b l :
  foldl (splitPath m hs) (slice_of a, slice_of b) l =
    (slice_of (a ++ filter (fun p => hash_at m p = hash_at hs p) l),
     slice_of (b ++ filter (fun p => hash_at m p ≠ hash_at hs p) l)).
Proof.
  revert a b. induction l as [|p l IH]; intros a b; cbn [foldl].
  - by rewrite !app_nil_r.
  - unfold splitPath at 2. case_decide as Hp; unfold append; cbn [elems]; rewrite IH.
    + rewrite filter_cons_True by done.
      rewrite (filter_cons_False (fun p => hash_at m p ≠ hash_at hs p)) by (by intros ?).
      by rewrite <- app_assoc.
    + rewrite filter_cons_False by done.
      rewrite (filter_cons_True (fun p => hash_at m p ≠ hash_at hs p)) by done.
      by rewrite <- app_assoc.
Qed.

Lemma unchangedToward_cons hs q m hp p :
  unchangedToward hs ((q, m) :: hp) p =
    bool_decide (hash_at m p = hash_at hs p) || unchangedToward hs hp p.
Proof. done. Qed.

(** The push phase adds exactly [parentEntries] to the heap.  The parents
    after the hashed ones ([junk]) are never reached: every remaining path
    matches one of the hashed parents, so the loop is left before them. *)
Lemma pushParents_Values cur hp junk rem heap :
  elems rem ≠ [] ->
  (forall p, p ∈ elems rem -> unchangedToward (hashes cur) hp p = true) ->
  Values (pushParents cur (hp ++ junk) rem heap) ≡ₚ
    parentEntries (hashes cur) hp (elems rem) ++ Values heap.
Proof.
  revert rem heap. induction hp as [|[q m] hp IH]; intros rem heap Hne Hall.
  - destruct (elems rem) as [|p l] eqn:Hrem; [done|].
    specialize (Hall p (list_elem_of_here _ _)). done.
  - cbn [app pushParents parentEntries]. unfold make.
    rewrite foldl_splitPath. cbn [app is_nil negb len elems].
    set (e := {| commit := q;
                 paths := filter (fun p => hash_at m p = hash_at (hashes cur) p) (elems rem);
                 hashes := m |}).
    destruct (filter (fun p => hash_at m p ≠ hash_at (hashes cur) p) (elems rem))
      as [|p' rem'] eqn:Hrest.
    + destruct (decide (len (slice_of []) = 0)) as [_|Hn]; [|by destruct Hn].
      by rewrite Values_Push.
    + destruct (decide (len (slice_of (p' :: rem')) = 0)) as [Hlen|_]; [done|].
      rewrite (IH (slice_of (p' :: rem'))); cbn [elems]; [|done|].
      * rewrite Values_Push. cbn. by rewrite Permutation_middle.
      * intros p Hp. rewrite <- Hrest in Hp.
        apply list_elem_of_filter in Hp as [Hneq Hin].
        specialize (Hall p Hin). rewrite unchangedToward_cons in Hall.
        rewrite bool_decide_eq_false_2 in Hall by done. done.
Qed.

Lemma zip_hashedParents tp ps parents k :
  exists junk,
    zip parents ((snd <$> hashedParents tp ps parents) ++ replicate k ∅) =
      hashedParents tp ps parents ++ junk.
Proof.
  induction parents as [|q rest [junk IH]]; [by exists []|].
  cbn [hashedParents]. destruct (getFileHashes q tp ps) as [m|err]; [|by eexists].
  exists junk. cbn. by rewrite <- IH.
Qed.

(** The closed form of [iteration]: the results it leaves and the entries
    it pushes. *)
Lemma iteration_spec tp cur heap rn :
  (iteration tp cur heap rn).2 = stepResults tp cur rn
  /\ Values (iteration tp cur heap rn).1 ≡ₚ stepEntries tp cur rn ++ Values heap.
Proof.
  unfold iteration. rewrite examineParents_spec.
  rewrite replicate_false_fmap, foldl_markUnchanged.
  unfold classifyPaths, stepResults, stepEntries, stepRemaining, stepHashed.
  set (hp := hashedParents tp (paths cur) (loadParents (commit cur))).
  change (fun p => false || unchangedToward (hashes cur) hp p)
    with (unchangedToward (hashes cur) hp).
  pose proof (classifyPaths_spec (commit cur) (paths cur)
                (unchangedToward (hashes cur) hp) rn nil_slice) as [_ Hrem].
  destruct (foldl _ _ _) as [rn' remaining]. cbn [fst snd] in *.
  split; [done|].
  cbn [elems app] in Hrem. rewrite <- Hrem.
  destruct (decide (0 < len remaining)) as [Hlen|Hlen]; unfold len in Hlen.
  - destruct (zip_hashedParents tp (paths cur) (loadParents (commit cur))
                (length (loadParents (commit cur)) - length hp)) as [junk Hzip].
    fold hp in Hzip. rewrite Hzip, pushParents_Values.
    + revert Hlen. destruct (elems remaining); intros Hlen; [cbn in Hlen; lia|done].
    + intros Hnil. rewrite Hnil in Hlen. cbn in Hlen. lia.
    + intros p Hp. rewrite Hrem in Hp. by apply list_elem_of_filter in Hp as [[_ ?] _].
  - revert Hlen. destruct (elems remaining); intros Hlen; [done|]. cbn in Hlen. lia.
Qed.

Lemma stepResults_lookup tp cur rn p n :
  stepResults tp cur rn !! p = Some n <->
  rn !! p = Some n \/
  (rn !! p = None /\ n = commit cur /\ p ∈ paths cur /\
   unchangedToward (hashes cur) (stepHashed tp cur) p = false).
Proof. apply classifyPaths_spec. Qed.

(** *** The entries pushed for the parents *)

Lemma parentEntries_lookup hs hp rem j e :
  parentEntries hs hp rem !! j = Some e ->
  exists q m,
    hp !! j = Some (q, m) /\ commit e = q /\ hashes e = m /\
    forall p, p ∈ paths e <->
              p ∈ rem /\ hash_at m p = hash_at hs p /\
              forall k q' m', k < j -> hp !! k = Some (q', m') ->
                              hash_at m' p ≠ hash_at hs p.
Proof.
  revert rem j. induction hp as [|[q0 m0] hp IH]; intros rem j; [done|].
  cbn [parentEntries]. destruct j as [|j].
  - intros [= <-]. exists q0, m0. do 3 (split; [done|]). intros p. cbn [paths].
    rewrite list_elem_of_filter. split.
    + intros [Heq Hin]. do 2 (split; [done|]). intros k q' m' Hlt. lia.
    + intros (Hin & Heq & _). done.
  - cbn [lookup list_lookup].
    destruct (filter (fun p => hash_at m0 p ≠ hash_at hs p) rem) as [|p' rem'] eqn:Hrest;
      [done|].
    intros He. apply IH in He as (q & m & Hj & Hq & Hm & Hpaths).
    exists q, m. do 3 (split; [done|]). intros p. rewrite Hpaths, <- Hrest.
    rewrite list_elem_of_filter. split.
    + intros ((Hne & Hin) & Heq & Hk). do 2 (split; [done|]).
      intros [|k] q' m' Hlt; cbn; [by intros [= <- <-]|].
      apply Hk. lia.
    + intros (Hin & Heq & Hk). split; [split; [|done]|split; [done|]].
      * apply (Hk 0 q0 m0); [lia|done].
      * intros k q' m' Hlt Hl. apply (Hk (S k) q' m'); [lia|done].
Qed.

Lemma parentEntries_first_match hs hp rem j q m p :
  p ∈ rem ->
  hp !! j = Some (q, m) ->
  hash_at m p = hash_at hs p ->
  (forall k q' m', k < j -> hp !! k = Some (q', m') -> hash_at m' p ≠ hash_at hs p) ->
  exists e, parentEntries hs hp rem !! j = Some e /\ commit e = q /\ hashes e = m /\
            p ∈ paths e.
Proof.
  revert rem j. induction hp as [|[q0 m0] hp IH]; intros rem j Hin Hj Heq Hk; [done|].
  cbn [parentEntries]. destruct j as [|j].
  - injection Hj as -> ->. eexists. split; [done|]. repeat split.
    by apply list_elem_of_filter.
  - cbn [lookup list_lookup] in *.
    assert (p ∈ filter (fun p => hash_at m0 p ≠ hash_at hs p) rem) as Hin'.
    { apply list_elem_of_filter. split; [|done]. apply (Hk 0 q0 m0); [lia|done]. }
    destruct (filter (fun p => hash_at m0 p ≠ hash_at hs p) rem) as [|p' rem'] eqn:Hrest;
      [by apply elem_of_nil in Hin'|].
    apply IH; try done.
    intros k q' m' Hlt Hl. apply (Hk (S k) q' m'); [lia|done].
Qed.

Lemma parentEntries_length hs hp rem : length (parentEntries hs hp rem) <= length hp.
Proof.
  revert rem. induction hp as [|[q m] hp IH]; intros rem; [done|].
  cbn [parentEntries length]. destruct (filter _ rem); cbn; [lia|].
  specialize (IH (s :: l)). lia.
Qed.

Lemma hashedParents_lookup tp ps parents j q m :
  hashedParents tp ps parents !! j = Some (q, m) ->
  parents !! j = Some q /\ getFileHashes q tp ps = Ok m.
Proof.
  revert j. induction parents as [|q0 rest IH]; intros j; [done|].
  cbn [hashedParents]. destruct (getFileHashes q0 tp ps) as [m0|] eqn:Hq0; [|done].
  destruct j as [|j]; cbn; [by intros [= <- <-]|]. apply IH.
Qed.

Lemma hashedParents_lookup_Some tp ps parents j q :
  parents !! j = Some q ->
  (forall k qk, k <= j -> parents !! k = Some qk -> is_Ok (getFileHashes qk tp ps)) ->
  exists m, hashedParents tp ps parents !! j = Some (q, m) /\
            getFileHashes q tp ps = Ok m.
Proof.
  revert j. induction parents as [|q0 rest IH]; intros j Hj Hk; [done|].
  cbn [hashedParents].
  pose proof (Hk 0 q0 ltac:(lia) eq_refl) as H0.
  destruct (getFileHashes q0 tp ps) as [m0|] eqn:Hq0; [|done].
  destruct j as [|j]; cbn in *.
  - injection Hj as <-. by exists m0.
  - apply IH; [done|]. intros k qk Hle Hl. apply (Hk (S k)); [lia|done].
Qed.

Lemma hashedParents_length tp ps parents :
  length (hashedParents tp ps parents) <= length parents.
Proof.
  induction parents as [|q rest IH]; [done|]. cbn [hashedParents].
  destruct (getFileHashes q tp ps); cbn; lia.
Qed.

Lemma unchangedToward_true hs hp p :
  unchangedToward hs hp p = true <->
  exists j q m, hp !! j = Some (q, m) /\ hash_at m p = hash_at hs p.
Proof.
  unfold unchangedToward. rewrite existsb_exists. split.
  - intros ([q m] & Hin & Hb). apply list_elem_of_In, list_elem_of_lookup in Hin as [j Hj].
    apply bool_decide_eq_true in Hb. by exists j, q, m.
  - intros (j & q & m & Hj & Heq). exists (q, m). split.
    + apply list_elem_of_In. by eapply list_elem_of_lookup_2.
    + by apply bool_decide_eq_true.
Qed.

Lemma unchangedToward_false hs hp p :
  unchangedToward hs hp p = false <->
  forall j q m, hp !! j = Some (q, m) -> hash_at m p ≠ hash_at hs p.
Proof.
  rewrite <- not_true_iff_false, unchangedToward_true. split.
  - intros Hn j q m Hj Heq. apply Hn. by exists j, q, m.
  - intros Hall (j & q & m & Hj & Heq). by eapply Hall.
Qed.

(** Every remaining path has a first examined parent with its hash. *)
Lemma first_match_exists hs hp p :
  unchangedToward hs hp p = true ->
  exists j q m, hp !! j = Some (q, m) /\ hash_at m p = hash_at hs p /\
    forall k q' m', k < j -> hp !! k = Some (q', m') -> hash_at m' p ≠ hash_at hs p.
Proof.
  induction hp as [|[q0 m0] hp IH]; [done|].
  rewrite unchangedToward_cons.
  destruct (decide (hash_at m0 p = hash_at hs p)) as [Heq|Hne].
  - intros _. exists 0, q0, m0. repeat split; [done|]. lia.
  - rewrite bool_decide_eq_false_2 by done. intros Hu.
    destruct (IH Hu) as (j & q & m & Hj & Heq & Hk).
    exists (S j), q, m. repeat split; [done..|].
    intros [|k] q' m' Hlt; cbn; [by intros [= <- <-]|]. apply Hk. lia.
Qed.

Lemma stepRemaining_elem tp cur rn p :
  p ∈ stepRemaining tp cur rn <->
  p ∈ paths cur /\ rn !! p = None /\
  unchangedToward (hashes cur) (stepHashed tp cur) p = true.
Proof. unfold stepRemaining. rewrite list_elem_of_filter. tauto. Qed.

Lemma stepEntries_lookup tp cur rn j e :
  stepEntries tp cur rn !! j = Some e ->
  j < NumParents (commit cur) /\
  ParentNode (commit cur) j = Ok (commit e) /\
  getFileHashes (commit e) tp (paths cur) = Ok (hashes e) /\
  forall p, p ∈ paths e <->
            p ∈ stepRemaining tp cur rn /\
            hash_at (hashes e) p = hash_at (hashes cur) p /\
            forall k q' m', k < j -> stepHashed tp cur !! k = Some (q', m') ->
                            hash_at m' p ≠ hash_at (hashes cur) p.
Proof.
  unfold stepEntries. intros He.
  assert (parentEntries (hashes cur) (stepHashed tp cur) (stepRemaining tp cur rn) !! j
          = Some e) as He'.
  { by destruct (stepRemaining tp cur rn). }
  apply parentEntries_lookup in He' as (q & m & Hj & <- & <- & Hpaths).
  apply hashedParents_lookup in Hj as [Hj Hm].
  apply loadParents_lookup in Hj as [Hlt Hj]. done.
Qed.

Lemma stepEntries_length tp cur rn :
  length (stepEntries tp cur rn) <= NumParents (commit cur).
Proof.
  unfold stepEntries.
  pose proof (parentEntries_length (hashes cur) (stepHashed tp cur)
                (stepRemaining tp cur rn)).
  pose proof (hashedParents_length tp (paths cur) (loadParents (commit cur))).
  pose proof (loadParents_length (commit cur)). unfold stepHashed in *.
  destruct (stepRemaining tp cur rn); cbn in *; lia.
Qed.

(** A remaining path goes to the entry of its first matching parent. *)
Lemma stepEntries_first_match tp cur rn j q m p :
  p ∈ stepRemaining tp cur rn ->
  stepHashed tp cur !! j = Some (q, m) ->
  hash_at m p = hash_at (hashes cur) p ->
  (forall k q' m', k < j -> stepHashed tp cur !! k = Some (q', m') ->
                   hash_at m' p ≠ hash_at (hashes cur) p) ->
  exists e, stepEntries tp cur rn !! j = Some e /\ commit e = q /\ hashes e = m /\
            p ∈ paths e.
Proof.
  intros Hin Hj Heq Hk. unfold stepEntries.
  destruct (parentEntries_first_match _ _ _ _ _ _ _ Hin Hj Heq Hk) as (e & He & ?).
  exists e. split; [|done].
  destruct (stepRemaining tp cur rn); [by apply elem_of_nil in Hin|done].
Qed.

(** ... and to no other entry. *)
Lemma stepEntries_unique tp cur rn j k e e' p :
  stepEntries tp cur rn !! j = Some e ->
  stepEntries tp cur rn !! k = Some e' ->
  p ∈ paths e -> p ∈ paths e' -> j = k.
Proof.
  intros He He' Hp Hp'.
  pose proof He as (_ & _ & _ & Hpaths)%stepEntries_lookup.
  pose proof He' as (_ & _ & _ & Hpaths')%stepEntries_lookup.
  apply Hpaths in Hp as (_ & Heq & Hbefore).
  apply Hpaths' in Hp' as (_ & Heq' & Hbefore').
  unfold stepEntries in He, He'.
  destruct (stepRemaining tp cur rn) as [|p0 rem]; [done|].
  apply parentEntries_lookup in He as (q & m & Hj & _ & Hm & _).
  apply parentEntries_lookup in He' as (q' & m' & Hk & _ & Hm' & _).
  subst m m'.
  destruct (Nat.lt_trichotomy j k) as [Hlt|[Heqjk|Hlt]]; [|done|].
  - by destruct (Hbefore' j q (hashes e) Hlt Hj).
  - by destruct (Hbefore k q' (hashes e') Hlt Hk).
Qed.

(** *** The traversal as a transition system *)

Lemma ancestorOrSelf_step c d i q :
  ancestorOrSelf c d -> i < NumParents d -> ParentNode d i = Ok q ->
  ancestorOrSelf c q.
Proof.
  induction 1 as [c|c j q' d Hj Hq' _ IH]; intros Hi Hq.
  - eapply ancestor_parent; [done..|]. apply ancestor_self.
  - eapply ancestor_parent; [done..|]. by apply IH.
Qed.

Lemma ancestorOrSelf_rank (rank : Node -> nat) :
  (forall c i q, i < NumParents c -> ParentNode c i = Ok q -> rank q < rank c) ->
  forall c d, ancestorOrSelf c d -> c = d \/ rank d < rank c.
Proof.
  intros Hrank c d. induction 1 as [c|c i q d Hi Hq _ IH]; [by left|].
  right. specialize (Hrank c i q Hi Hq). destruct IH as [<-|?]; lia.
Qed.

(** Invariants are proved on the contents of the heap, whatever its
    layout: they hold of the first entry, and an iteration that replaces
    the popped entry by the entries of its parents keeps them. *)
Lemma reached_invariant c0 tp ps0
    (I : list (commitAndPaths Node) -> gmap string Node -> Prop) :
  (forall l l' rn, l ≡ₚ l' -> I l rn -> I l' rn) ->
  (forall m, getFileHashes c0 tp ps0 = Ok m ->
             I [{| commit := c0; paths := ps0; hashes := m |}] ∅) ->
  (forall cur rest rn, I (cur :: rest) rn ->
                       I (stepEntries tp cur rn ++ rest) (stepResults tp cur rn)) ->
  forall heap rn, reached c0 tp ps0 heap rn -> I (Values heap) rn.
Proof.
  intros Hperm Hstart Hstep heap rn.
  induction 1 as [m Hm|heap rn cur heap' _ IH Hpop].
  - eapply Hperm; [|by apply Hstart].
    by rewrite Values_Push, Values_NewWith.
  - destruct (iteration_spec tp cur heap' rn) as [-> Hvals].
    eapply Hperm; [symmetry; apply Hvals|]. apply Hstep.
    eapply Hperm; [|apply IH]. by apply Pop_Some.
Qed.

Lemma traverse_reached c0 tp ps0 fuel heap rn rn' :
  reached c0 tp ps0 heap rn ->
  traverse fuel tp heap rn = Some rn' ->
  exists heap', reached c0 tp ps0 heap' rn' /\ Pop heap' = None.
Proof.
  revert heap rn. induction fuel as [|fuel IH]; intros heap rn Hr; [done|].
  cbn [traverse]. destruct (Pop heap) as [[cur heap']|] eqn:Hpop.
  - destruct (iteration tp cur heap' rn) as [heap'' rn''] eqn:Hit.
    apply IH.
    change heap'' with (heap'', rn'').1. change rn'' with (heap'', rn'').2 at 2.
    rewrite <- Hit. by eapply reached_iteration.
  - intros [= <-]. by exists heap.
Qed.

Lemma traverse_fuel_mono tp fuel fuel' heap rn rn' :
  traverse fuel tp heap rn = Some rn' -> fuel <= fuel' ->
  traverse fuel' tp heap rn = Some rn'.
Proof.
  revert fuel' heap rn. induction fuel as [|fuel IH]; intros fuel' heap rn; [done|].
  intros Ht Hle. destruct fuel' as [|fuel']; [lia|]. cbn [traverse] in *.
  destruct (Pop heap) as [[cur heap']|]; [|done].
  destruct (iteration tp cur heap' rn) as [heap'' rn'']. apply IH; [done|lia].
Qed.

(** *** Post-processing *)

Lemma postProcess_Ok (l : list (string * Node)) (acc r : gmap string Commit) :
  postProcess l acc = Ok r ->
  NoDup l.*1 ->
  (forall p, p ∈ l.*1 -> acc !! p = None) ->
  forall p cm,
    r !! p = Some cm <->
    acc !! p = Some cm \/ exists n, (p, n) ∈ l /\ CommitNode_Commit n = Ok cm.
Proof.
  revert acc. induction l as [|[p0 n0] l IH]; intros acc Hpost Hnd Hacc p cm.
  - injection Hpost as <-. split; [by left|].
    intros [?|(n & []%elem_of_nil & _)]; done.
  - cbn [postProcess] in Hpost.
    destruct (CommitNode_Commit n0) as [cm0|] eqn:Hcm0; [|done].
    cbn in Hnd. apply NoDup_cons in Hnd as [Hp0 Hnd].
    rewrite (IH _ Hpost Hnd).
    + destruct (decide (p = p0)) as [->|Hne].
      * rewrite lookup_insert_eq. rewrite (Hacc p0) by apply list_elem_of_here.
        split.
        -- intros [[= <-]|(n & Hin & _)].
           ++ right. exists n0. split; [apply list_elem_of_here|done].
           ++ destruct Hp0. apply list_elem_of_fmap. by exists (p0, n).
        -- intros [?|(n & Hin & Hn)]; [done|].
           apply elem_of_cons in Hin as [[= ->]|Hin]; [left; congruence|].
           destruct Hp0. apply list_elem_of_fmap. by exists (p0, n).
      * rewrite lookup_insert_ne by done. split.
        -- intros [?|(n & Hin & Hn)]; [by left|].
           right. exists n. split; [by apply list_elem_of_further|done].
        -- intros [?|(n & Hin & Hn)]; [by left|].
           apply elem_of_cons in Hin as [[= -> ->]|Hin]; [done|].
           right. by exists n.
    + intros p' Hp'. rewrite lookup_insert_ne.
      * apply Hacc. by apply list_elem_of_further.
      * intros <-. done.
Qed.

Lemma postProcess_all_Ok (l : list (string * Node)) (acc r : gmap string Commit) p n :
  postProcess l acc = Ok r -> (p, n) ∈ l -> is_Ok (CommitNode_Commit n).
Proof.
  revert acc. induction l as [|[p0 n0] l IH]; intros acc Hpost Hin.
  - by apply elem_of_nil in Hin.
  - cbn [postProcess] in Hpost.
    destruct (CommitNode_Commit n0) as [cm0|] eqn:Hcm0; [|done].
    apply elem_of_cons in Hin as [[= -> ->]|Hin]; [by rewrite Hcm0|].
    by eapply IH.
Qed.

Lemma postProcess_Err (l : list (string * Node)) (acc : gmap string Commit) err :
  postProcess l acc = Err err ->
  exists p n, (p, n) ∈ l /\ CommitNode_Commit n = Err err.
Proof.
  revert acc. induction l as [|[p0 n0] l IH]; intros acc Hpost; [done|].
  cbn [postProcess] in Hpost.
  destruct (CommitNode_Commit n0) as [cm0|err0] eqn:Hcm0.
  - destruct (IH _ Hpost) as (p & n & Hin & Hn).
    exists p, n. split; [by apply list_elem_of_further|done].
  - injection Hpost as ->. exists p0, n0. split; [apply list_elem_of_here|done].
Qed.

(** What a successful call returns: the final [resultNodes] of a reached
    state with an empty heap, each node turned into its commit. *)
Lemma getLastCommitForPaths_Ok fuel c0 tp ps0 result :
  getLastCommitForPaths fuel c0 tp ps0 = Some (Ok result) ->
  exists heap rn,
    reached c0 tp ps0 heap rn /\ Values heap = [] /\
    (forall p cm, result !! p = Some cm <->
                  exists n, rn !! p = Some n /\ CommitNode_Commit n = Ok cm) /\
    (forall p n, rn !! p = Some n -> is_Ok (CommitNode_Commit n)).
Proof.
  unfold getLastCommitForPaths.
  destruct (getFileHashes c0 tp ps0) as [m|] eqn:Hm; [|done].
  destruct (traverse _ _ _ _) as [rn|] eqn:Ht; [|done]. intros [= Hpost].
  eapply traverse_reached in Ht as (heap & Hr & Hpop); [|by apply reached_start].
  exists heap, rn. split; [done|]. split; [by apply Pop_None|]. split.
  - intros p cm.
    rewrite (postProcess_Ok _ _ _ Hpost (NoDup_fst_map_to_list rn)) by done.
    rewrite lookup_empty. split.
    + intros [?|(n & Hin & Hn)]; [done|]. exists n.
      by apply elem_of_map_to_list in Hin.
    + intros (n & Hin & Hn). right. exists n. by apply elem_of_map_to_list in Hin.
  - intros p n Hn. eapply postProcess_all_Ok; [done|].
    by apply elem_of_map_to_list.
Qed.

(** A call that fails fails with the error of the first [getFileHashes] or
    with the error of a [Commit()] in post-processing. *)
Lemma getLastCommitForPaths_Err fuel c0 tp ps0 err :
  getLastCommitForPaths fuel c0 tp ps0 = Some (Err err) ->
  getFileHashes c0 tp ps0 = Err err \/
  exists heap rn p n,
    reached c0 tp ps0 heap rn /\ rn !! p = Some n /\ CommitNode_Commit n = Err err.
Proof.
  unfold getLastCommitForPaths.
  destruct (getFileHashes c0 tp ps0) as [m|] eqn:Hm; [|intros [= ->]; by left].
  destruct (traverse _ _ _ _) as [rn|] eqn:Ht; [|done]. intros [= Hpost].
  eapply traverse_reached in Ht as (heap & Hr & _); [|by apply reached_start].
  apply postProcess_Err in Hpost as (p & n & Hin & Hn).
  right. exists heap, rn, p, n. by apply elem_of_map_to_list in Hin.
Qed.

(** *** Invariants of the reached states *)

Lemma elem_of_stepEntries tp cur rn e :
  e ∈ stepEntries tp cur rn ->
  exists j, j < NumParents (commit cur) /\
    ParentNode (commit cur) j = Ok (commit e) /\
    getFileHashes (commit e) tp (paths cur) = Ok (hashes e) /\
    forall p, p ∈ paths e ->
              p ∈ paths cur /\ rn !! p = None /\
              hash_at (hashes e) p = hash_at (hashes cur) p.
Proof.
  intros [j Hj]%list_elem_of_lookup.
  apply stepEntries_lookup in Hj as (Hlt & Hq & Hm & Hpaths).
  exists j. do 3 (split; [done|]). intros p Hp.
  apply Hpaths in Hp as (Hrem & Heq & _).
  by apply stepRemaining_elem in Hrem as (? & ? & _).
Qed.

(** Every entry of the heap carries requested paths only, and so does
    [resultNodes]. *)
Lemma reached_paths c0 tp ps0 heap rn :
  reached c0 tp ps0 heap rn ->
  (forall e p, e ∈ Values heap -> p ∈ paths e -> p ∈ ps0) /\
  (forall p n, rn !! p = Some n -> p ∈ ps0).
Proof.
  apply (reached_invariant c0 tp ps0 (fun l rn =>
    (forall e p, e ∈ l -> p ∈ paths e -> p ∈ ps0) /\
    (forall p n, rn !! p = Some n -> p ∈ ps0))).
  - intros l l' rn' Hperm [H1 H2]. split; [|done].
    intros e p He. apply H1. by rewrite Hperm.
  - intros m _. split; [|done]. by intros e p ->%list_elem_of_singleton.
  - intros cur rest rn' [H1 H2]. split.
    + intros e p [He|He]%elem_of_app Hp.
      * apply elem_of_stepEntries in He as (_ & _ & _ & _ & Hpaths).
        apply Hpaths in Hp as (Hp & _). apply (H1 cur); [apply list_elem_of_here|done].
      * apply (H1 e); [by apply list_elem_of_further|done].
    + intros p n [Hn|(_ & _ & Hp & _)]%stepResults_lookup; [by eapply H2|].
      apply (H1 cur); [apply list_elem_of_here|done].
Qed.

(** Every commit in the heap or in [resultNodes] is the start commit or one
    of its ancestors. *)
Lemma reached_ancestors c0 tp ps0 heap rn :
  reached c0 tp ps0 heap rn ->
  (forall e, e ∈ Values heap -> ancestorOrSelf c0 (commit e)) /\
  (forall p n, rn !! p = Some n -> ancestorOrSelf c0 n).
Proof.
  apply (reached_invariant c0 tp ps0 (fun l rn =>
    (forall e, e ∈ l -> ancestorOrSelf c0 (commit e)) /\
    (forall p n, rn !! p = Some n -> ancestorOrSelf c0 n))).
  - intros l l' rn' Hperm [H1 H2]. split; [|done].
    intros e He. apply H1. by rewrite Hperm.
  - intros m _. split; [|done].
    intros e ->%list_elem_of_singleton. apply ancestor_self.
  - intros cur rest rn' [H1 H2]. split.
    + intros e [He|He]%elem_of_app.
      * apply elem_of_stepEntries in He as (j & Hj & Hq & _).
        eapply ancestorOrSelf_step; [|done..]. apply H1, list_elem_of_here.
      * by apply H1, list_elem_of_further.
    + intros p n [Hn|(_ & -> & _)]%stepResults_lookup; [by eapply H2|].
      apply H1, list_elem_of_here.
Qed.

(** Every requested path is either resolved or carried by an entry of the
    heap. *)
Lemma reached_cover c0 tp ps0 heap rn :
  reached c0 tp ps0 heap rn ->
  forall p, p ∈ ps0 ->
            is_Some (rn !! p) \/ exists e, e ∈ Values heap /\ p ∈ paths e.
Proof.
  apply (reached_invariant c0 tp ps0 (fun l rn =>
    forall p, p ∈ ps0 -> is_Some (rn !! p) \/ exists e, e ∈ l /\ p ∈ paths e)).
  - intros l l' rn' Hperm HI p Hp.
    destruct (HI p Hp) as [?|(e & He & ?)]; [by left|].
    right. exists e. by rewrite <- Hperm.
  - intros m _ p Hp. right. eexists. split; [apply list_elem_of_here|done].
  - intros cur rest rn' HI p Hp.
    destruct (HI p Hp) as [[n Hn]|(e & He & Hpe)].
    { left. exists n. apply stepResults_lookup. by left. }
    apply elem_of_cons in He as [->|He].
    2:{ right. exists e. split; [|done]. apply elem_of_app. by right. }
    destruct (rn' !! p) as [n|] eqn:Hn.
    { left. exists n. apply stepResults_lookup. by left. }
    destruct (unchangedToward (hashes cur) (stepHashed tp cur) p) eqn:Hu.
    + right.
      destruct (first_match_exists _ _ _ Hu) as (j & q & m & Hj & Heq & Hk).
      destruct (stepEntries_first_match tp cur rn' j q m p) as (e & He & _ & _ & Hin);
        try done.
      { by apply stepRemaining_elem. }
      exists e. split; [|done]. apply elem_of_app. left.
      by eapply list_elem_of_lookup_2.
    + left. exists (commit cur). apply stepResults_lookup. by right.
Qed.

(** The hash map of an entry holds, for each of its paths, the hash of the
    path at the entry's commit. *)
Lemma reached_coherent c0 tp ps0 heap rn :
  reached c0 tp ps0 heap rn ->
  forall e p, e ∈ Values heap -> p ∈ paths e ->
              hashOf tp (commit e) p = Ok (hash_at (hashes e) p).
Proof.
  apply (reached_invariant c0 tp ps0 (fun l _ =>
    forall e p, e ∈ l -> p ∈ paths e ->
                hashOf tp (commit e) p = Ok (hash_at (hashes e) p))).
  - intros l l' _ Hperm HI e p He. apply HI. by rewrite Hperm.
  - intros m Hm e p ->%list_elem_of_singleton Hp.
    by apply (getFileHashes_hashOf _ _ ps0).
  - intros cur rest rn' HI e p [He|He]%elem_of_app Hp.
    + apply elem_of_stepEntries in He as (_ & _ & _ & Hm & Hpaths).
      apply Hpaths in Hp as (Hp & _).
      by apply (getFileHashes_hashOf _ _ (paths cur)).
    + apply HI; [by apply list_elem_of_further|done].
Qed.

(** *** The examined parents and the store *)

Lemma hashOf_Ok_getFileHashes tp q p ps :
  is_Ok (hashOf tp q p) -> is_Ok (getFileHashes q tp ps).
Proof.
  unfold hashOf. destruct (getFileHashes q tp [p]) as [m|] eqn:Hm; [|done].
  intros _. by destruct (getFileHashes_Ok_paths _ _ _ ps _ Hm) as [m' ->].
Qed.

Lemma stepHashed_lookup tp cur j q m :
  stepHashed tp cur !! j = Some (q, m) ->
  j < NumParents (commit cur) /\ ParentNode (commit cur) j = Ok q /\
  forall p, p ∈ paths cur -> hashOf tp q p = Ok (hash_at m p).
Proof.
  intros [Hj Hm]%hashedParents_lookup. apply loadParents_lookup in Hj as [Hlt Hq].
  repeat split; [done..|]. intros p Hp. by eapply getFileHashes_hashOf.
Qed.

(** When the parents up to index [j] load and their trees can be read,
    parent [j] is among the examined ones. *)
Lemma stepHashed_lookup_Some tp cur p j q :
  j < NumParents (commit cur) ->
  ParentNode (commit cur) j = Ok q ->
  (forall k, k <= j ->
             exists qk, ParentNode (commit cur) k = Ok qk /\ is_Ok (hashOf tp qk p)) ->
  exists m, stepHashed tp cur !! j = Some (q, m).
Proof.
  intros Hlt Hq Hk.
  assert (loadParents (commit cur) !! j = Some q) as Hj.
  { apply loadParents_lookup_Some; [done| |done].
    intros k Hkj. destruct (Hk k ltac:(lia)) as (qk & -> & _). done. }
  destruct (hashedParents_lookup_Some tp (paths cur) _ _ _ Hj) as (m & Hm & _).
  - intros k qk Hle [_ Hqk]%loadParents_lookup.
    destruct (Hk k Hle) as (qk' & Hqk' & Hok).
    rewrite Hqk in Hqk'. injection Hqk' as <-.
    by eapply hashOf_Ok_getFileHashes.
  - by exists m.
Qed.

(** *** The claims about one iteration *)

(** C5. At a state of the traversal, let [cur] be the popped entry and [p]
    one of its paths that has no result yet, and let every parent of
    [cur.commit] load with a readable tree.  Then [cur.commit] is recorded
    for [p] by this iteration exactly when the hash of [p] at [cur.commit]
    differs from the hash of [p] at each parent (in particular for a merge
    commit that matches none of its parents), and [p] stays without a
    result exactly when some parent has that hash. *)
Theorem recorded_iff_no_parent_matches c0 tp ps0 heap rn cur heap' p :
  reached c0 tp ps0 heap rn ->
  Pop heap = Some (cur, heap') ->
  p ∈ paths cur ->
  rn !! p = None ->
  (forall i, i < NumParents (commit cur) ->
             exists q, ParentNode (commit cur) i = Ok q /\ is_Ok (hashOf tp q p)) ->
  exists h,
    hashOf tp (commit cur) p = Ok h /\
    ((iteration tp cur heap' rn).2 !! p = Some (commit cur) <->
     forall i q, i < NumParents (commit cur) -> ParentNode (commit cur) i = Ok q ->
                 hashOf tp q p ≠ Ok h) /\
    ((iteration tp cur heap' rn).2 !! p = None <->
     exists i q, i < NumParents (commit cur) /\ ParentNode (commit cur) i = Ok q /\
                 hashOf tp q p = Ok h).
Proof.
  intros Hreach Hpop Hp Hrn Hok.
  exists (hash_at (hashes cur) p). split.
  { apply (reached_coherent _ _ _ _ _ Hreach); [|done].
    rewrite (Pop_Some _ _ _ Hpop). apply list_elem_of_here. }
  destruct (iteration_spec tp cur heap' rn) as [-> _].
  assert (unchangedToward (hashes cur) (stepHashed tp cur) p = true <->
          exists i q, i < NumParents (commit cur) /\ ParentNode (commit cur) i = Ok q /\
                      hashOf tp q p = Ok (hash_at (hashes cur) p)) as Hu.
  { rewrite unchangedToward_true. split.
    - intros (j & q & m & Hj & Heq).
      apply stepHashed_lookup in Hj as (Hlt & Hq & Hh).
      exists j, q. repeat split; [done..|]. rewrite (Hh p Hp). by f_equal.
    - intros (i & q & Hlt & Hq & Hh).
      destruct (stepHashed_lookup_Some tp cur p i q Hlt Hq) as [m Hm].
      { intros k Hk. apply Hok. lia. }
      exists i, q, m. split; [done|].
      apply stepHashed_lookup in Hm as (_ & _ & Hh').
      rewrite (Hh' p Hp) in Hh. by injection Hh. }
  split.
  - rewrite stepResults_lookup, <- not_true_iff_false, Hu. split.
    + intros [?|(_ & _ & _ & Hn)]; [congruence|].
      intros i q Hlt Hq Hh. apply Hn. by exists i, q.
    + intros Hall. right. repeat split; [done..|].
      intros (i & q & Hlt & Hq & Hh). by eapply Hall.
  - rewrite <- Hu. split.
    + intros Hnone.
      destruct (unchangedToward (hashes cur) (stepHashed tp cur) p) eqn:Hun; [done|].
      assert (stepResults tp cur rn !! p = Some (commit cur)) as Hsome.
      { apply stepResults_lookup. by right. }
      congruence.
    + intros Hun. apply eq_None_not_Some. intros [n Hn].
      apply stepResults_lookup in Hn as [?|(_ & _ & _ & ?)]; congruence.
Qed.

(** C6. At a state of the traversal, let [cur] be the popped entry, [p] one
    of its paths without a result, and [j] the first parent index at which
    the hash of [p] is the hash the entry holds for [p] (the parents before
    [j] load and have another hash).  Then the entries pushed by the
    iteration are [stepEntries], the one at position [j] is for parent [j]
    and carries [p], and no other pushed entry carries [p], whatever the
    hashes at the later parents. *)
Theorem first_matching_parent c0 tp ps0 heap rn cur heap' p j q :
  reached c0 tp ps0 heap rn ->
  Pop heap = Some (cur, heap') ->
  p ∈ paths cur ->
  rn !! p = None ->
  j < NumParents (commit cur) ->
  ParentNode (commit cur) j = Ok q ->
  hashOf tp q p = hashOf tp (commit cur) p ->
  (forall k, k < j ->
             exists qk hk, ParentNode (commit cur) k = Ok qk /\
                           hashOf tp qk p = Ok hk /\
                           Ok hk ≠ hashOf tp (commit cur) p) ->
  Values (iteration tp cur heap' rn).1 ≡ₚ stepEntries tp cur rn ++ Values heap' /\
  (exists e, stepEntries tp cur rn !! j = Some e /\ commit e = q /\ p ∈ paths e) /\
  (forall k e, stepEntries tp cur rn !! k = Some e -> p ∈ paths e -> k = j).
Proof.
  intros Hreach Hpop Hp Hrn Hlt Hq Hmatch Hbefore.
  assert (hashOf tp (commit cur) p = Ok (hash_at (hashes cur) p)) as Hcur.
  { apply (reached_coherent _ _ _ _ _ Hreach); [|done].
    rewrite (Pop_Some _ _ _ Hpop). apply list_elem_of_here. }
  rewrite Hcur in Hmatch, Hbefore.
  split; [apply iteration_spec|].
  destruct (stepHashed_lookup_Some tp cur p j q Hlt Hq) as [m Hm].
  { intros k Hk. destruct (decide (k = j)) as [->|Hne].
    - exists q. by rewrite Hmatch.
    - destruct (Hbefore k ltac:(lia)) as (qk & hk & Hqk & Hhk & _).
      exists qk. by rewrite Hhk. }
  assert (hash_at m p = hash_at (hashes cur) p) as Heq.
  { apply stepHashed_lookup in Hm as (_ & _ & Hh).
    rewrite (Hh p Hp) in Hmatch. by injection Hmatch. }
  assert (forall k q' m', k < j -> stepHashed tp cur !! k = Some (q', m') ->
                          hash_at m' p ≠ hash_at (hashes cur) p) as Hne.
  { intros k q' m' Hk Hl. apply stepHashed_lookup in Hl as (_ & Hq' & Hh).
    destruct (Hbefore k Hk) as (qk & hk & Hqk & Hhk & Hneq).
    rewrite Hq' in Hqk. injection Hqk as <-.
    rewrite (Hh p Hp) in Hhk. injection Hhk as <-.
    intros Heq'. apply Hneq. by f_equal. }
  assert (p ∈ stepRemaining tp cur rn) as Hrem.
  { apply stepRemaining_elem. repeat split; [done..|].
    apply unchangedToward_true. by exists j, q, m. }
  destruct (stepEntries_first_match tp cur rn j q m p Hrem Hm Heq Hne)
    as (e & He & Hce & _ & Hpe).
  split; [by exists e|].
  intros k e' He' Hpe'. by eapply stepEntries_unique.
Qed.

(** *** The claims about the returned mapping *)

(** C10. Every key of the returned mapping is one of the requested paths,
    and an iteration never changes the node already recorded for a path. *)
Theorem result_keys_requested_write_once
    fuel c0 tp ps0 result cur heap rn p n :
  (getLastCommitForPaths fuel c0 tp ps0 = Some (Ok result) ->
   is_Some (result !! p) -> p ∈ ps0) /\
  (rn !! p = Some n -> (iteration tp cur heap rn).2 !! p = Some n).
Proof.
  split.
  - intros (heap' & rn' & Hreach & _ & Hres & _)%getLastCommitForPaths_Ok [cm Hcm].
    apply Hres in Hcm as (n' & Hn' & _).
    by apply (reached_paths _ _ _ _ _ Hreach) in Hn'.
  - intros Hn. destruct (iteration_spec tp cur heap rn) as [-> _].
    apply stepResults_lookup. by left.
Qed.

(** C7. Every commit of the returned mapping is the commit of a node that
    is the start commit or is reached from it through parent edges.  On an
    acyclic graph (one with a rank that decreases along parent edges) that
    node is not a descendant of the start commit: if the start commit is
    reached from it, it is the start commit. *)
Theorem result_commits_are_ancestors fuel c0 tp ps0 result p cm :
  getLastCommitForPaths fuel c0 tp ps0 = Some (Ok result) ->
  result !! p = Some cm ->
  exists n,
    CommitNode_Commit n = Ok cm /\
    ancestorOrSelf c0 n /\
    forall rank : Node -> nat,
      (forall c i q, i < NumParents c -> ParentNode c i = Ok q -> rank q < rank c) ->
      ancestorOrSelf n c0 -> n = c0.
Proof.
  intros (heap & rn & Hreach & _ & Hres & _)%getLastCommitForPaths_Ok Hcm.
  apply Hres in Hcm as (n & Hn & Hc). exists n. split; [done|].
  apply (reached_ancestors _ _ _ _ _ Hreach) in Hn. split; [done|].
  intros rank Hrank Hback.
  destruct (ancestorOrSelf_rank rank Hrank _ _ Hn) as [?|?]; [done|].
  destruct (ancestorOrSelf_rank rank Hrank _ _ Hback) as [?|?]; [done|lia].
Qed.

(** C2, as the code has it.  No requested path is dropped: the first entry
    carries the whole list, and when the call returns a mapping its domain
    is exactly the set of requested paths, whether or not they exist at the
    start commit.  A path that does not exist is no error either: a call
    fails only when the tree of the start commit cannot be read or when the
    commit of a recorded node (the start commit or an ancestor) cannot be
    loaded. *)
Theorem result_domain_is_requested_paths fuel c0 tp ps0 :
  (forall result,
      getLastCommitForPaths fuel c0 tp ps0 = Some (Ok result) ->
      forall p, is_Some (result !! p) <-> p ∈ ps0) /\
  (forall err,
      getLastCommitForPaths fuel c0 tp ps0 = Some (Err err) ->
      (getCommitTree c0 tp = Err err /\ err ≠ ErrDirectoryNotFound) \/
      exists n, ancestorOrSelf c0 n /\ CommitNode_Commit n = Err err).
Proof.
  split.
  - intros result (heap & rn & Hreach & Hempty & Hres & Hok)%getLastCommitForPaths_Ok p.
    split.
    + intros [cm Hcm]. apply Hres in Hcm as (n & Hn & _).
      by apply (reached_paths _ _ _ _ _ Hreach) in Hn.
    + intros Hp.
      destruct (reached_cover _ _ _ _ _ Hreach p Hp) as [[n Hn]|(e & He & _)].
      * specialize (Hok p n Hn).
        destruct (CommitNode_Commit n) as [cm|] eqn:Hcm; [|done].
        exists cm. apply Hres. by exists n.
      * rewrite Hempty in He. by apply elem_of_nil in He.
  - intros err [Hm|(heap & rn & p & n & Hreach & Hn & Herr)]%getLastCommitForPaths_Err.
    + left. unfold getFileHashes in Hm.
      destruct (getCommitTree c0 tp) as [tree|[]]; try done; by injection Hm as <-.
    + right. exists n. split; [|done].
      by apply (reached_ancestors _ _ _ _ _ Hreach) in Hn.
Qed.

(** *** The branch a path follows *)

Lemma filter_nil_intro {A} (P : A -> Prop) `{!forall x, Decision (P x)} (l : list A) :
  (forall x, x ∈ l -> ~ P x) -> filter P l = [].
Proof.
  induction l as [|x l IH]; intros Hn; [done|].
  rewrite filter_cons_False by apply Hn, list_elem_of_here.
  apply IH. intros y Hy. by apply Hn, list_elem_of_further.
Qed.

Lemma filter_unique_index {A} (P : A -> Prop) `{!forall x, Decision (P x)}
    (l : list A) j x :
  l !! j = Some x -> P x ->
  (forall k y, l !! k = Some y -> P y -> k = j) ->
  filter P l = [x].
Proof.
  revert j. induction l as [|y l IH]; intros j Hj Hx Huniq; [done|].
  destruct j as [|j].
  - injection Hj as ->. rewrite filter_cons_True by done. f_equal.
    apply filter_nil_intro. intros z [k Hk]%list_elem_of_lookup Hz.
    by specialize (Huniq (S k) z Hk Hz).
  - rewrite filter_cons_False.
    + apply (IH j); [done..|]. intros k z Hk Hz.
      specialize (Huniq (S k) z Hk Hz). lia.
    + intros Hy. by specialize (Huniq 0 y eq_refl Hy).
Qed.

Lemma stepEntries_no_holder tp cur rn p :
  p ∉ stepRemaining tp cur rn ->
  filter (fun e => p ∈ paths e) (stepEntries tp cur rn) = [].
Proof.
  intros Hn. apply filter_nil_intro. intros e [j Hj]%list_elem_of_lookup Hp.
  apply stepEntries_lookup in Hj as (_ & _ & _ & Hpaths).
  by apply Hpaths in Hp as [? _].
Qed.


(** *** Termination *)

Section Termination.
(** A finite acyclic commit graph has a rank that decreases along every
    parent edge (the length of the longest path to a root) and a bound
    on the number of parents of a commit. *)
Variables (rank : Node -> nat) (maxParents : nat).
Hypothesis parents_below :
  forall c i q, i < NumParents c -> ParentNode c i = Ok q -> rank q < rank c.
Hypothesis parents_bounded : forall c, NumParents c <= maxParents.

(** The measure of a heap: an entry weighs more than any [maxParents]
    entries of lower rank. *)
Definition weight (l : list (commitAndPaths Node)) : nat :=
  sum_list_with (fun e => S maxParents ^ rank (commit e)) l.

Lemma sum_list_with_bound {A} (f : A -> nat) (l : list A) (M : nat) :
  (forall x, x ∈ l -> f x <= M) -> sum_list_with f l <= length l * M.
Proof.
  induction l as [|x l IH]; intros Hb; cbn; [lia|].
  pose proof (Hb x (list_elem_of_here _ _)).
  assert (sum_list_with f l <= length l * M).
  { apply IH. intros y Hy. by apply Hb, list_elem_of_further. }
  lia.
Qed.

Lemma weight_stepEntries tp cur rn :
  weight (stepEntries tp cur rn) < S maxParents ^ rank (commit cur).
Proof.
  unfold weight.
  assert (0 < S maxParents ^ rank (commit cur)) as Hpos.
  { pose proof (Nat.pow_nonzero (S maxParents) (rank (commit cur))). lia. }
  destruct (stepEntries tp cur rn) as [|e0 l] eqn:Hse; [done|].
  assert (forall e, e ∈ stepEntries tp cur rn -> rank (commit e) < rank (commit cur))
    as Hrank.
  { intros e (j & Hj & Hq & _)%elem_of_stepEntries. by eapply parents_below. }
  destruct (rank (commit cur)) as [|r] eqn:Hr.
  { specialize (Hrank e0). rewrite Hse in Hrank.
    specialize (Hrank (list_elem_of_here _ _)). lia. }
  pose proof (stepEntries_length tp cur rn) as Hlen.
  pose proof (parents_bounded (commit cur)) as Hb.
  rewrite <- Hse.
  pose proof (sum_list_with_bound
                (fun e : commitAndPaths Node => S maxParents ^ rank (commit e))
                (stepEntries tp cur rn) (S maxParents ^ r)) as Hsum.
  assert (length (stepEntries tp cur rn) * S maxParents ^ r
          <= maxParents * S maxParents ^ r) as Hmul.
  { apply Nat.mul_le_mono_r. lia. }
  rewrite Nat.pow_succ_r'.
  assert (0 < S maxParents ^ r).
  { pose proof (Nat.pow_nonzero (S maxParents) r). lia. }
  enough (sum_list_with (fun e : commitAndPaths Node => S maxParents ^ rank (commit e))
            (stepEntries tp cur rn) <= length (stepEntries tp cur rn) * S maxParents ^ r)
    by lia.
  apply Hsum. intros e He. apply Nat.pow_le_mono_r; [lia|].
  specialize (Hrank e He). lia.
Qed.

Lemma traverse_terminates tp fuel heap rn :
  weight (Values heap) < fuel -> exists rn', traverse fuel tp heap rn = Some rn'.
Proof.
  revert heap rn. induction fuel as [|fuel IH]; intros heap rn Hw; [lia|].
  cbn [traverse]. destruct (Pop heap) as [[cur heap']|] eqn:Hpop; [|by eexists].
  destruct (iteration_spec tp cur heap' rn) as [_ Hvals].
  destruct (iteration tp cur heap' rn) as [heap'' rn'']. cbn [fst] in Hvals.
  apply IH. unfold weight in *.
  rewrite Hvals, sum_list_with_app.
  rewrite (Pop_Some _ _ _ Hpop) in Hw. cbn [sum_list_with] in Hw.
  pose proof (weight_stepEntries tp cur rn). unfold weight in *. lia.
Qed.

Lemma call_returns c0 tp ps0 :
  exists fuel r, forall fuel',
    fuel <= fuel' -> getLastCommitForPaths fuel' c0 tp ps0 = Some r.
Proof.
  unfold getLastCommitForPaths.
  destruct (getFileHashes c0 tp ps0) as [m|err] eqn:Hm; [|by exists 0, (Err err)].
  set (heap0 := Push {| commit := c0; paths := ps0; hashes := m |} NewWith).
  destruct (traverse_terminates tp (S (weight (Values heap0))) heap0 ∅)
    as [rn Hrn]; [lia|].
  exists (S (weight (Values heap0))). eexists. intros fuel' Hle.
  by rewrite (traverse_fuel_mono _ _ _ _ _ _ Hrn Hle).
Qed.

Lemma loop_ends_with_empty_heap c0 tp ps0 m :
  getFileHashes c0 tp ps0 = Ok m ->
  exists heap rn, reached c0 tp ps0 heap rn /\ Values heap = [].
Proof.
  intros Hm.
  set (heap0 := Push {| commit := c0; paths := ps0; hashes := m |} NewWith).
  destruct (traverse_terminates tp (S (weight (Values heap0))) heap0 ∅)
    as [rn Hrn]; [lia|].
  destruct (traverse_reached c0 tp ps0 _ _ _ _ (reached_start _ _ _ _ Hm) Hrn)
    as (heap & Hreach & Hpop).
  exists heap, rn. split; [done|]. by apply Pop_None.
Qed.

(** C8. On a finite acyclic commit graph the loop stops: some number of
    iterations suffices for the call to return, whatever the start
    commit, the subtree and the paths, and more iterations give the same
    answer.  When the first hashes are obtained the loop ends in a state
    whose heap is empty. *)
Theorem traversal_terminates c0 tp ps0 :
  (exists fuel r, forall fuel',
      fuel <= fuel' -> getLastCommitForPaths fuel' c0 tp ps0 = Some r) /\
  (forall m, getFileHashes c0 tp ps0 = Ok m ->
             exists heap rn, reached c0 tp ps0 heap rn /\ Values heap = []).
Proof.
  split; [apply call_returns|apply loop_ends_with_empty_heap].
Qed.


End Termination.

End Properties.

(** ** Worked examples *)

Section Examples.
Import Concrete.

(** The call on a repository of the concrete store, with the list heap. *)
Definition lastCommit (repo : list exCommit) (fuel c : nat) (tp : string)
    (ps : list string) : option (result (gmap string nat)) :=
  @getLastCommitForPaths nat exTree nat (exStore repo)
    (@listHeap nat exTree nat (exStore repo)) fuel c tp ps.

Definition hashesAt (repo : list exCommit) (c : nat) (tp : string)
    (ps : list string) : result (gmap string Hash) :=
  @getFileHashes nat exTree nat (exStore repo) c tp ps.

(** The linear-chain scenario of the specification. *)
Example linear_chain :
  lastCommit repo_linear 3 2 "" ["a.txt"; "b.txt"]
  = Some (Ok {[ "a.txt" := 2; "b.txt" := 1 ]}).
Proof. vm_compute. reflexivity. Qed.

Example subtree_hashes :
  hashesAt repo_dirs 0 "src" [""; "main.go"; "README"]
  = Ok {[ "" := 50%N; "main.go" := 8%N ]}
  /\ hashesAt repo_dirs 0 "lib" [""; "main.go"] = Ok ∅
  /\ hashesAt repo_dirs 0 "" ["src"; "README"; "LICENSE"]
     = Ok {[ "src" := 50%N; "README" := 7%N ]}.
Proof. repeat split; vm_compute; reflexivity. Qed.

(** C2, counterexample.  In the linear repository, [missing] does not exist
    at the root commit [0] (the first hashes have no entry for it), and yet
    the returned mapping sends it to commit [0]. *)
Lemma absent_path_is_resolved :
  hashesAt repo_linear 0 "" ["a.txt"; "missing"] = Ok {[ "a.txt" := 1%N ]}
  /\ lastCommit repo_linear 2 0 "" ["a.txt"; "missing"]
     = Some (Ok {[ "a.txt" := 0; "missing" := 0 ]}).
Proof. split; vm_compute; reflexivity. Qed.

Lemma result_domain_is_requested_paths_witness :
  is_Some (({[ "a.txt" := 0; "missing" := 0 ]} : gmap string nat) !! "missing")
  <-> "missing" ∈ ["a.txt"; "missing"].
Proof.
  apply (proj1 (result_domain_is_requested_paths (store := exStore repo_linear)
                  (frontier := listHeap) 2 0 "" ["a.txt"; "missing"])).
  vm_compute. reflexivity.
Defined.

(** C1, at the failing inputs.  In [repo_err] the parent of commit [2]
    cannot be loaded and the tree of commit [0], the parent of [1], cannot
    be read.  Both calls return a mapping and no error. *)
Lemma traversal_swallows_fetch_errors :
  (@ParentNode nat exTree nat (exStore repo_err) 2 0 = Err (ErrOther "i/o")
   /\ lastCommit repo_err 2 2 "" ["a.txt"] = Some (Ok {[ "a.txt" := 2 ]}))
  /\ (@ParentNode nat exTree nat (exStore repo_err) 1 0 = Ok 0
      /\ hashesAt repo_err 0 "" ["a.txt"] = Err (ErrOther "i/o")
      /\ lastCommit repo_err 2 1 "" ["a.txt"] = Some (Ok {[ "a.txt" := 1 ]})).
Proof. repeat split; vm_compute; reflexivity. Qed.

(** C3, at the failing input.  In [repo_merge] the call starts at the merge
    [2] with the path [x], whose hash is that of the second parent.  The
    first iteration pops the first entry and pushes an entry with an empty
    path list for the first parent, before the entry of the second. *)
Lemma empty_entry_pushed_for_first_parent :
  hashesAt repo_merge 2 "" ["x"] = Ok {[ "x" := 2%N ]}
  /\ Values (@iteration nat exTree nat (exStore repo_merge) listHeap ""
               {| commit := 2; paths := ["x"]; hashes := {[ "x" := 2%N ]} |}
               NewWith ∅).1
     = [ {| commit := 0; paths := []; hashes := {[ "x" := 1%N ]} |};
         {| commit := 1; paths := ["x"]; hashes := {[ "x" := 2%N ]} |} ]
  /\ lastCommit repo_merge 4 2 "" ["x"] = Some (Ok {[ "x" := 1 ]}).
Proof. repeat split; vm_compute; reflexivity. Qed.

(** The numbering of the commits of [repo_linear] and [repo_merge] is a
    rank: parents have smaller numbers. *)
Lemma linear_parents_below c i q :
  i < @NumParents nat exTree nat (exStore repo_linear) c ->
  @ParentNode nat exTree nat (exStore repo_linear) c i = Ok q -> q < c.
Proof.
  intros Hi Hq.
  destruct c as [|[|[|c]]]; destruct i as [|i];
    vm_compute in Hi; vm_compute in Hq; try lia; injection Hq as <-; lia.
Qed.

Lemma linear_parents_bounded c :
  @NumParents nat exTree nat (exStore repo_linear) c <= 1.
Proof. destruct c as [|[|[|c]]]; vm_compute; lia. Qed.

Lemma merge_parents_below c i q :
  i < @NumParents nat exTree nat (exStore repo_merge) c ->
  @ParentNode nat exTree nat (exStore repo_merge) c i = Ok q -> q < c.
Proof.
  intros Hi Hq.
  destruct c as [|[|[|c]]]; destruct i as [|[|i]];
    vm_compute in Hi; vm_compute in Hq; try lia; injection Hq as <-; lia.
Qed.

Lemma merge_parents_bounded c :
  @NumParents nat exTree nat (exStore repo_merge) c <= 2.
Proof. destruct c as [|[|[|c]]]; vm_compute; lia. Qed.

Lemma traversal_terminates_witness :
  (exists fuel r, forall fuel',
      fuel <= fuel' -> lastCommit repo_linear fuel' 2 "" ["a.txt"; "b.txt"] = Some r)
  /\ (forall m, hashesAt repo_linear 2 "" ["a.txt"; "b.txt"] = Ok m ->
               exists heap rn,
                 @reached nat exTree nat (exStore repo_linear) listHeap
                          2 "" ["a.txt"; "b.txt"] heap rn
                 /\ Values heap = []).
Proof.
  apply (@traversal_terminates nat exTree nat (exStore repo_linear) listHeap
           (fun c => c) 1 linear_parents_below linear_parents_bounded).
Defined.

Lemma result_commits_are_ancestors_witness :
  exists n,
    CommitNode_Commit (ObjectStore := exStore repo_linear) n = Ok 1 /\
    ancestorOrSelf (store := exStore repo_linear) 2 n /\
    forall rank : nat -> nat,
      (forall c i q, i < NumParents (ObjectStore := exStore repo_linear) c ->
                     ParentNode (ObjectStore := exStore repo_linear) c i = Ok q ->
                     rank q < rank c) ->
      ancestorOrSelf (store := exStore repo_linear) n 2 -> n = 2.
Proof.
  apply (result_commits_are_ancestors (store := exStore repo_linear)
           (frontier := listHeap)
           3 2 "" ["a.txt"; "b.txt"] {[ "a.txt" := 2; "b.txt" := 1 ]} "b.txt" 1).
  - vm_compute. reflexivity.
  - vm_compute. reflexivity.
Defined.

Lemma result_keys_requested_write_once_witness :
  "b.txt" ∈ ["a.txt"; "b.txt"]
  /\ (@iteration nat exTree nat (exStore repo_linear) listHeap ""
        {| commit := 1; paths := ["a.txt"; "b.txt"];
           hashes := {[ "a.txt" := 1%N; "b.txt" := 2%N ]} |}
        NewWith {[ "a.txt" := 2 ]}).2 !! "a.txt" = Some 2.
Proof.
  split.
  - apply (proj1 (@result_keys_requested_write_once nat exTree nat
                    (exStore repo_linear) listHeap
                    3 2 "" ["a.txt"; "b.txt"] {[ "a.txt" := 2; "b.txt" := 1 ]}
                    {| commit := 2; paths := []; hashes := ∅ |} NewWith ∅ "b.txt" 1)).
    + vm_compute. reflexivity.
    + vm_compute. eexists. reflexivity.
  - apply (proj2 (@result_keys_requested_write_once nat exTree nat
                    (exStore repo_linear) listHeap
                    3 2 "" ["a.txt"; "b.txt"] ∅
                    {| commit := 1; paths := ["a.txt"; "b.txt"];
                       hashes := {[ "a.txt" := 1%N; "b.txt" := 2%N ]} |}
                    NewWith {[ "a.txt" := 2 ]} "a.txt" 2)).
    vm_compute. reflexivity.
Defined.


(** In [repo_linear], [a.txt] of the start commit [2] differs from the
    [a.txt] of its only parent: the first iteration records commit [2]. *)
Lemma recorded_iff_no_parent_matches_witness :
  exists h,
    hashOf (store := exStore repo_linear) "" 2 "a.txt" = Ok h /\
    ((iteration (store := exStore repo_linear) (frontier := listHeap) ""
        {| commit := 2; paths := ["a.txt"; "b.txt"];
           hashes := {[ "a.txt" := 3%N; "b.txt" := 2%N ]} |} [] ∅).2 !! "a.txt"
     = Some 2 <->
     forall i q, i < NumParents (ObjectStore := exStore repo_linear) 2 ->
                 ParentNode (ObjectStore := exStore repo_linear) 2 i = Ok q ->
                 hashOf (store := exStore repo_linear) "" q "a.txt" ≠ Ok h) /\
    ((iteration (store := exStore repo_linear) (frontier := listHeap) ""
        {| commit := 2; paths := ["a.txt"; "b.txt"];
           hashes := {[ "a.txt" := 3%N; "b.txt" := 2%N ]} |} [] ∅).2 !! "a.txt"
     = None <->
     exists i q, i < NumParents (ObjectStore := exStore repo_linear) 2 /\
                 ParentNode (ObjectStore := exStore repo_linear) 2 i = Ok q /\
                 hashOf (store := exStore repo_linear) "" q "a.txt" = Ok h).
Proof.
  apply (recorded_iff_no_parent_matches (store := exStore repo_linear)
           (frontier := listHeap) 2 "" ["a.txt"; "b.txt"]
           [ {| commit := 2; paths := ["a.txt"; "b.txt"];
                hashes := {[ "a.txt" := 3%N; "b.txt" := 2%N ]} |} ] ∅
           {| commit := 2; paths := ["a.txt"; "b.txt"];
              hashes := {[ "a.txt" := 3%N; "b.txt" := 2%N ]} |} [] "a.txt").
  - apply (reached_start (store := exStore repo_linear) (frontier := listHeap)
             2 "" ["a.txt"; "b.txt"] {[ "a.txt" := 3%N; "b.txt" := 2%N ]}).
    vm_compute. reflexivity.
  - reflexivity.
  - apply list_elem_of_here.
  - reflexivity.
  - intros i Hi. vm_compute in Hi. assert (i = 0) as -> by lia.
    exists 1. split; [reflexivity|]. vm_compute. exact I.
Defined.

(** In [repo_merge], [x] of the merge [2] has the hash of the second
    parent only: it goes to the entry pushed for parent index [1]. *)
Lemma first_matching_parent_witness :
  Values (iteration (store := exStore repo_merge) (frontier := listHeap) ""
            {| commit := 2; paths := ["x"]; hashes := {[ "x" := 2%N ]} |} [] ∅).1
  ≡ₚ stepEntries (store := exStore repo_merge) ""
       {| commit := 2; paths := ["x"]; hashes := {[ "x" := 2%N ]} |} ∅
     ++ Values (BinaryHeap := listHeap (store := exStore repo_merge)) [] /\
  (exists e, stepEntries (store := exStore repo_merge) ""
               {| commit := 2; paths := ["x"]; hashes := {[ "x" := 2%N ]} |} ∅ !! 1
             = Some e /\ commit e = 1 /\ "x" ∈ paths e) /\
  (forall k e, stepEntries (store := exStore repo_merge) ""
                 {| commit := 2; paths := ["x"]; hashes := {[ "x" := 2%N ]} |} ∅ !! k
               = Some e -> "x" ∈ paths e -> k = 1).
Proof.
  apply (first_matching_parent (store := exStore repo_merge)
           (frontier := listHeap) 2 "" ["x"]
           [ {| commit := 2; paths := ["x"]; hashes := {[ "x" := 2%N ]} |} ] ∅
           {| commit := 2; paths := ["x"]; hashes := {[ "x" := 2%N ]} |} [] "x" 1 1).
  - apply (reached_start (store := exStore repo_merge) (frontier := listHeap)
             2 "" ["x"] {[ "x" := 2%N ]}).
    vm_compute. reflexivity.
  - reflexivity.
  - apply list_elem_of_here.
  - reflexivity.
  - vm_compute. lia.
  - reflexivity.
  - vm_compute. reflexivity.
  - intros k Hk. assert (k = 0) as -> by lia.
    exists 0, 1%N. vm_compute. repeat split. discriminate.
Defined.

End Examples.

(** ** The result of the traversal, path by path *)

Section Resolution.
Context {Node Tree Commit : Type} {store : ObjectStore Node Tree Commit}.
Context {frontier : BinaryHeap (commitAndPaths Node) byCommitTime}.

Implicit Types (c q : Node) (cur e : commitAndPaths Node).
Implicit Types (tp p : string) (ps : list string).
Implicit Types (m hs : gmap string Hash) (rn : gmap string Node).

(** The branch of [p] stops at [c]: no parent of [c] is a first match. *)
Definition branchEnd tp p (h : Hash) c : Prop :=
  forall j q, ~ firstMatch tp c p h j q.

(** [p] resolves to [n] from [c0]: [n] is where the branch of [p], followed
    from [c0] with the hash [p] has at [c0], stops. *)
Definition resolvesTo tp c0 p n : Prop :=
  exists h, hashOf tp c0 p = Ok h /\ branch tp p h c0 n /\ branchEnd tp p h n.

Lemma firstMatch_functional tp c p h j q j' q' :
  firstMatch tp c p h j q -> firstMatch tp c p h j' q' -> j = j' /\ q = q'.
Proof.
  intros (Hj & Hq & Hh & Hbefore) (Hj' & Hq' & Hh' & Hbefore').
  assert (j = j') as <-.
  { destruct (Nat.lt_trichotomy j j') as [Hlt|[?|Hlt]]; [|done|].
    - destruct (Hbefore' j Hlt) as (qk & hk & Hqk & Hhk & Hne).
      rewrite Hq in Hqk. injection Hqk as <-. rewrite Hh in Hhk. by injection Hhk as <-.
    - destruct (Hbefore j' Hlt) as (qk & hk & Hqk & Hhk & Hne).
      rewrite Hq' in Hqk. injection Hqk as <-. rewrite Hh' in Hhk. by injection Hhk as <-. }
  split; [done|]. rewrite Hq in Hq'. by injection Hq'.
Qed.

Lemma branch_snoc tp p h c d j q :
  branch tp p h c d -> firstMatch tp d p h j q -> branch tp p h c q.
Proof.
  induction 1 as [c|c j' q' d Hfm _ IH]; intros Hd.
  - eapply branch_parent; [done|apply branch_here].
  - eapply branch_parent; [done|by apply IH].
Qed.

Lemma branch_end_unique tp p h c a b :
  branch tp p h c a -> branchEnd tp p h a ->
  branch tp p h c b -> branchEnd tp p h b -> a = b.
Proof.
  induction 1 as [c|c j q a Hfm _ IH]; intros Ha Hb Hbend.
  - destruct Hb as [c|c j q b Hfm _]; [done|]. by destruct (Ha j q).
  - destruct Hb as [c|c j' q' b Hfm' Hb]; [by destruct (Hbend j q)|].
    destruct (firstMatch_functional _ _ _ _ _ _ _ _ Hfm Hfm') as [-> ->].
    by apply IH.
Qed.

Lemma resolvesTo_functional tp c0 p n n' :
  resolvesTo tp c0 p n -> resolvesTo tp c0 p n' -> n = n'.
Proof.
  intros (h & Hh & Hb & He) (h' & Hh' & Hb' & He').
  rewrite Hh in Hh'. injection Hh' as <-. by eapply branch_end_unique.
Qed.

(** The examined parents of an entry, read on the store. *)
Lemma unchangedToward_firstMatch tp cur p :
  p ∈ paths cur ->
  unchangedToward (hashes cur) (stepHashed tp cur) p = true ->
  exists j q m,
    stepHashed tp cur !! j = Some (q, m) /\
    hash_at m p = hash_at (hashes cur) p /\
    (forall k q' m', k < j -> stepHashed tp cur !! k = Some (q', m') ->
                     hash_at m' p ≠ hash_at (hashes cur) p) /\
    firstMatch tp (commit cur) p (hash_at (hashes cur) p) j q.
Proof.
  intros Hp Hu.
  destruct (first_match_exists _ _ _ Hu) as (j & q & m & Hj & Heq & Hbefore).
  exists j, q, m. do 3 (split; [done|]).
  pose proof Hj as (Hlt & Hq & Hh)%stepHashed_lookup.
  split; [done|]. split; [done|]. split; [by rewrite (Hh p Hp), Heq|].
  intros k Hk.
  destruct (lookup_lt_is_Some_2 (stepHashed tp cur) k) as [[qk mk] Hqk].
  { apply lookup_lt_Some in Hj. lia. }
  pose proof Hqk as (_ & Hpk & Hhk)%stepHashed_lookup.
  exists qk, (hash_at mk p). do 2 (split; [auto|]). by eapply Hbefore.
Qed.

Lemma unchangedToward_branchEnd tp cur p :
  p ∈ paths cur ->
  unchangedToward (hashes cur) (stepHashed tp cur) p = false ->
  branchEnd tp p (hash_at (hashes cur) p) (commit cur).
Proof.
  intros Hp Hu j q (Hj & Hq & Hh & Hbefore).
  destruct (stepHashed_lookup_Some tp cur p j q Hj Hq) as [m Hm].
  { intros k Hk. destruct (decide (k = j)) as [->|Hne].
    - exists q. by rewrite Hh.
    - destruct (Hbefore k ltac:(lia)) as (qk & hk & Hqk & Hhk & _).
      exists qk. by rewrite Hhk. }
  rewrite unchangedToward_false in Hu. apply (Hu j q m Hm).
  apply stepHashed_lookup in Hm as (_ & _ & Hh').
  rewrite (Hh' p Hp) in Hh. by injection Hh.
Qed.

Lemma filter_length_le_1 {A} (P : A -> Prop) `{!forall x, Decision (P x)} (l : list A) :
  (forall i j x y, l !! i = Some x -> l !! j = Some y -> P x -> P y -> i = j) ->
  length (filter P l) <= 1.
Proof.
  intros Huniq. destruct (filter P l) as [|x k] eqn:Hf; [cbn; lia|].
  assert (x ∈ filter P l) as Hx by (rewrite Hf; apply list_elem_of_here).
  apply list_elem_of_filter in Hx as [HPx [i Hi]%list_elem_of_lookup].
  rewrite <- Hf, (filter_unique_index P l i x Hi HPx); [done|].
  intros j y Hj HPy. by eapply Huniq.
Qed.

(** A path is carried by at most one entry of the heap, by none once it has
    a result; the entry that carries it is on the branch of the path, and
    the result is the end of that branch. *)
Lemma reached_resolution c0 tp ps0 m p heap rn :
  getFileHashes c0 tp ps0 = Ok m ->
  reached c0 tp ps0 heap rn ->
  (forall n, rn !! p = Some n ->
             filter (fun e => p ∈ paths e) (Values heap) = [] /\
             branch tp p (hash_at m p) c0 n /\ branchEnd tp p (hash_at m p) n) /\
  (forall e, e ∈ Values heap -> p ∈ paths e ->
             rn !! p = None /\
             filter (fun e => p ∈ paths e) (Values heap) = [e] /\
             hash_at (hashes e) p = hash_at m p /\
             branch tp p (hash_at m p) c0 (commit e)).
Proof.
  intros Hm. set (h := hash_at m p).
  set (holders := fun l : list (commitAndPaths Node) => filter (fun e => p ∈ paths e) l).
  enough (reached c0 tp ps0 heap rn ->
          (exists n, rn !! p = Some n /\ holders (Values heap) = [] /\
                     branch tp p h c0 n /\ branchEnd tp p h n) \/
          (rn !! p = None /\ holders (Values heap) = []) \/
          (rn !! p = None /\
           exists e, holders (Values heap) = [e] /\ hash_at (hashes e) p = h /\
                     branch tp p h c0 (commit e))) as Hmain.
  { intros Hr. specialize (Hmain Hr). unfold holders in Hmain. split.
    - intros n Hn.
      destruct Hmain as [(n' & Hn' & ? & ? & ?)|[[? _]|[? _]]]; [|congruence..].
      rewrite Hn in Hn'. by injection Hn' as <-.
    - intros e He Hp.
      assert (e ∈ filter (fun e => p ∈ paths e) (Values heap)) as Hin
          by by apply list_elem_of_filter.
      destruct Hmain as [(n' & _ & Hf & _)|[[_ Hf]|(Hrn & e' & Hf & ? & ?)]];
        rewrite Hf in Hin; [by apply elem_of_nil in Hin..|].
      apply list_elem_of_singleton in Hin as ->. done. }
  apply (reached_invariant c0 tp ps0 (fun l rn =>
    (exists n, rn !! p = Some n /\ holders l = [] /\
               branch tp p h c0 n /\ branchEnd tp p h n) \/
    (rn !! p = None /\ holders l = []) \/
    (rn !! p = None /\
     exists e, holders l = [e] /\ hash_at (hashes e) p = h /\
               branch tp p h c0 (commit e)))).
  - intros l l' rn' Hperm. unfold holders.
    intros [(n & ? & Hf & ?)|[(? & Hf)|(? & e & Hf & ?)]].
    + left. exists n. split; [done|]. split; [|done].
      apply Permutation_nil_r. by rewrite <- Hperm, Hf.
    + right; left. split; [done|]. apply Permutation_nil_r. by rewrite <- Hperm, Hf.
    + right; right. split; [done|]. exists e. split; [|done].
      apply Permutation_singleton_r. by rewrite <- Hperm, Hf.
  - intros m' Hm'. rewrite Hm in Hm'. injection Hm' as <-. unfold holders.
    destruct (decide (p ∈ ps0)) as [Hp|Hp].
    + right; right. split; [done|]. eexists.
      split; [by rewrite filter_cons_True|]. split; [done|apply branch_here].
    + right; left. split; [done|]. by rewrite filter_cons_False.
  - intros cur rest rn' HI. unfold holders in *. rewrite filter_app.
    destruct (decide (p ∈ paths cur)) as [Hin|Hin].
    2:{ rewrite filter_cons_False in HI by done.
        rewrite stepEntries_no_holder by (by intros (? & _)%stepRemaining_elem).
        assert (forall n, stepResults tp cur rn' !! p = Some n <-> rn' !! p = Some n)
          as Hsame.
        { intros n. rewrite stepResults_lookup. split; [|by left].
          intros [?|(_ & _ & ? & _)]; done. }
        destruct HI as [(n & Hn & ?)|[(Hn & ?)|(Hn & ?)]].
        - left. exists n. by rewrite Hsame.
        - right; left. split; [|done]. apply eq_None_not_Some. intros [n Hn'].
          apply Hsame in Hn'. congruence.
        - right; right. split; [|done]. apply eq_None_not_Some. intros [n Hn'].
          apply Hsame in Hn'. congruence. }
    rewrite filter_cons_True in HI by done.
    destruct HI as [(n & _ & ? & _)|[(_ & ?)|(Hrn & e & Hf & Hh & Hb)]]; [done..|].
    injection Hf as <- Hrest. rewrite Hrest, app_nil_r.
    destruct (unchangedToward (hashes cur) (stepHashed tp cur) p) eqn:Hu.
    + destruct (unchangedToward_firstMatch tp cur p Hin Hu)
        as (j & q & mq & Hmq & Heq & Hne & Hfm).
      assert (p ∈ stepRemaining tp cur rn') as Hrem by by apply stepRemaining_elem.
      destruct (stepEntries_first_match tp cur rn' j q mq p Hrem Hmq Heq Hne)
        as (e & He & Hce & Hme & Hpe).
      right; right. split.
      * apply eq_None_not_Some. intros [n Hn].
        apply stepResults_lookup in Hn as [?|(_ & _ & _ & ?)]; congruence.
      * exists e. split; [|split].
        -- apply (filter_unique_index _ _ j); [done..|].
           intros k e' He' Hpe'. by eapply stepEntries_unique.
        -- by rewrite Hme, Heq.
        -- rewrite Hce. eapply branch_snoc; [done|]. by rewrite <- Hh.
    + left. exists (commit cur). split; [apply stepResults_lookup; by right|].
      split; [|split; [done|]].
      * apply stepEntries_no_holder. intros (_ & _ & ?)%stepRemaining_elem. congruence.
      * rewrite <- Hh. by apply unchangedToward_branchEnd.
Qed.

Lemma reached_first_hashes c0 tp ps0 heap rn :
  reached c0 tp ps0 heap rn -> exists m, getFileHashes c0 tp ps0 = Ok m.
Proof. induction 1 as [m Hm|]; [by exists m|done]. Qed.

Lemma getFileHashes_Err_paths c tp ps ps' err :
  getFileHashes c tp ps = Err err -> getFileHashes c tp ps' = Err err.
Proof.
  unfold getFileHashes. by destruct (getCommitTree c tp) as [t|[]].
Qed.

(** The nodes left in [resultNodes] when the loop ends. *)
Lemma final_resultNodes c0 tp ps0 heap rn p n :
  reached c0 tp ps0 heap rn -> Values heap = [] ->
  rn !! p = Some n <-> p ∈ ps0 /\ resolvesTo tp c0 p n.
Proof.
  intros Hreach Hempty.
  destruct (reached_first_hashes _ _ _ _ _ Hreach) as [m Hm].
  pose proof (reached_resolution c0 tp ps0 m p heap rn Hm Hreach) as [Hres _].
  assert (forall n', rn !! p = Some n' -> p ∈ ps0 /\ resolvesTo tp c0 p n') as Hfwd.
  { intros n' Hn'. pose proof Hn' as Hp%(reached_paths _ _ _ _ _ Hreach).
    split; [done|]. destruct (Hres n' Hn') as (_ & Hb & He).
    exists (hash_at m p). split; [|done]. by eapply getFileHashes_hashOf. }
  split; [apply Hfwd|]. intros [Hp Hto].
  destruct (reached_cover _ _ _ _ _ Hreach p Hp) as [[n' Hn']|(e & He & _)].
  - destruct (Hfwd n' Hn') as [_ Hto'].
    by rewrite (resolvesTo_functional _ _ _ _ _ Hto Hto').
  - rewrite Hempty in He. by apply elem_of_nil in He.
Qed.

(** X1. The mapping a call returns sends every requested path to the commit
    of the node its branch ends at: start with the hash the path has at the
    start commit, go from a commit to the first parent (in index order, the
    earlier parents loading with a readable tree and another hash) that has
    this hash, and stop where no parent is such a first match. *)
Theorem result_is_end_of_branch fuel c0 tp ps0 result p :
  getLastCommitForPaths fuel c0 tp ps0 = Some (Ok result) ->
  p ∈ ps0 ->
  exists n cm,
    resolvesTo tp c0 p n /\ CommitNode_Commit n = Ok cm /\ result !! p = Some cm.
Proof.
  intros (heap & rn & Hreach & Hempty & Hres & Hok)%getLastCommitForPaths_Ok Hp.
  destruct (reached_cover _ _ _ _ _ Hreach p Hp) as [[n Hn]|(e & He & _)].
  2:{ rewrite Hempty in He. by apply elem_of_nil in He. }
  pose proof Hn as [_ Hto]%(final_resultNodes _ _ _ _ _ _ _ Hreach Hempty).
  specialize (Hok p n Hn).
  destruct (CommitNode_Commit n) as [cm|] eqn:Hcm; [|done].
  exists n, cm. do 2 (split; [done|]). apply Hres. by exists n.
Qed.

(** X2. In every state of the loop the paths of the popped entry have no
    result yet and are carried by no other entry of the heap: the entries
    share no path, and a path that has a result is in none of them. *)
Theorem popped_paths_are_unresolved_and_unshared c0 tp ps0 heap rn cur heap' p :
  reached c0 tp ps0 heap rn ->
  Pop heap = Some (cur, heap') ->
  p ∈ paths cur ->
  rn !! p = None /\ forall e, e ∈ Values heap' -> p ∉ paths e.
Proof.
  intros Hreach Hpop Hp.
  destruct (reached_first_hashes _ _ _ _ _ Hreach) as [m Hm].
  pose proof (reached_resolution c0 tp ps0 m p heap rn Hm Hreach) as [_ Hheld].
  pose proof (Pop_Some _ _ _ Hpop) as Hperm.
  destruct (Hheld cur) as (Hrn & Hf & _); [rewrite Hperm; apply list_elem_of_here|done|].
  split; [done|]. intros e He Hpe.
  assert (filter (fun e => p ∈ paths e) (cur :: Values heap') ≡ₚ [cur]) as Hf'
      by by rewrite <- Hperm, Hf.
  rewrite filter_cons_True in Hf' by done.
  apply Permutation_singleton_r in Hf'. injection Hf' as Hf'.
  assert (e ∈ filter (fun e => p ∈ paths e) (Values heap')) as Hin
      by by apply list_elem_of_filter.
  rewrite Hf' in Hin. by apply elem_of_nil in Hin.
Qed.

Lemma getFileHashes_ext c tp ps ps' :
  (forall p, p ∈ ps <-> p ∈ ps') ->
  getFileHashes c tp ps = getFileHashes c tp ps'.
Proof.
  intros Hsame. unfold getFileHashes.
  destruct (getCommitTree c tp) as [tree|[]]; try done.
  f_equal. apply map_eq. intros p. rewrite !foldl_addFileHash_lookup.
  destruct (decide (p ∈ ps)) as [Hin|Hin], (decide (p ∈ ps')) as [Hin'|Hin'];
    try done.
  - by apply Hsame in Hin.
  - by apply Hsame in Hin'.
Qed.

(** X3. The hashes [getFileHashes] returns depend on the set of requested
    paths only: neither their order nor repetitions matter. *)
Theorem getFileHashes_same_paths c tp ps ps' :
  (forall p, p ∈ ps <-> p ∈ ps') ->
  getFileHashes c tp ps = getFileHashes c tp ps'.
Proof. apply getFileHashes_ext. Qed.

(** What a call that returns has done. *)
Lemma getLastCommitForPaths_Some fuel c0 tp ps0 r :
  getLastCommitForPaths fuel c0 tp ps0 = Some r ->
  (exists err, getFileHashes c0 tp ps0 = Err err /\ r = Err err) \/
  (exists heap rn,
      is_Ok (getFileHashes c0 tp ps0) /\
      reached c0 tp ps0 heap rn /\ Values heap = [] /\
      r = postProcess (map_to_list rn) ∅).
Proof.
  unfold getLastCommitForPaths.
  destruct (getFileHashes c0 tp ps0) as [m|err] eqn:Hm.
  2:{ intros [= <-]. left. by exists err. }
  destruct (traverse _ _ _ _) as [rn|] eqn:Ht; [|done]. intros [= <-].
  eapply traverse_reached in Ht as (heap & Hr & Hpop); [|by apply reached_start].
  right. exists heap, rn. repeat split; [done|by apply Pop_None].
Qed.

Lemma call_result_lookup fuel c0 tp ps0 result p cm :
  getLastCommitForPaths fuel c0 tp ps0 = Some (Ok result) ->
  result !! p = Some cm <->
  p ∈ ps0 /\ exists n, resolvesTo tp c0 p n /\ CommitNode_Commit n = Ok cm.
Proof.
  intros (heap & rn & Hreach & Hempty & Hres & Hok)%getLastCommitForPaths_Ok.
  rewrite Hres. split.
  - intros (n & Hn & Hcm).
    apply (final_resultNodes _ _ _ _ _ _ _ Hreach Hempty) in Hn as [Hp Hto].
    split; [done|]. by exists n.
  - intros (Hp & n & Hto & Hcm). exists n. split; [|done].
    by apply (final_resultNodes _ _ _ _ _ _ _ Hreach Hempty).
Qed.

(** X4. Asking for a path alone or together with other paths gives the same
    commit for it, when both calls return a mapping. *)
Theorem batch_agrees_with_single fuel fuel' c0 tp ps0 p result result' :
  getLastCommitForPaths fuel c0 tp ps0 = Some (Ok result) ->
  getLastCommitForPaths fuel' c0 tp [p] = Some (Ok result') ->
  p ∈ ps0 ->
  result !! p = result' !! p.
Proof.
  intros Hcall Hcall' Hp. apply option_eq. intros cm.
  rewrite (call_result_lookup _ _ _ _ _ _ _ Hcall).
  rewrite (call_result_lookup _ _ _ _ _ _ _ Hcall').
  split; intros [_ ?]; (split; [|done]); [apply list_elem_of_here|done].
Qed.

End Resolution.

(** ** The heap does not matter *)

Section Outcomes.
Context {Node Tree Commit : Type} {store : ObjectStore Node Tree Commit}.
Context {frontier : BinaryHeap (commitAndPaths Node) byCommitTime}.

(** The answers a call may give.  The post-processing loop ranges over the
    Go map [resultNodes], in an order the language leaves open: every order
    of its entries is allowed here, where [getLastCommitForPaths] takes the
    one of [map_to_list]. *)
Definition mayReturn (fuel : nat) (c : Node) (treePath : string)
    (paths : list string) (r : result (gmap string Commit)) : Prop :=
  match getFileHashes c treePath paths with
  | Err e => r = Err e
  | Ok initialHashes =>
      exists resultNodes order,
        traverse fuel treePath
          (Push {| commit := c; paths := paths; hashes := initialHashes |}
                NewWith) ∅
        = Some resultNodes /\
        order ≡ₚ map_to_list resultNodes /\
        r = postProcess order ∅
  end.

Lemma call_mayReturn fuel c tp ps r :
  getLastCommitForPaths fuel c tp ps = Some r -> mayReturn fuel c tp ps r.
Proof.
  unfold getLastCommitForPaths, mayReturn.
  destruct (getFileHashes c tp ps) as [m|err]; [|by intros [= <-]].
  destruct (traverse _ _ _ _) as [rn|]; [|done]. intros [= <-].
  by exists rn, (map_to_list rn).
Qed.

(** What a call that may return [r] has done. *)
Lemma mayReturn_cases fuel c0 tp ps0 r :
  mayReturn fuel c0 tp ps0 r ->
  (exists err, getFileHashes c0 tp ps0 = Err err /\ r = Err err) \/
  (exists heap rn order,
      is_Ok (getFileHashes c0 tp ps0) /\
      reached c0 tp ps0 heap rn /\ Values heap = [] /\
      order ≡ₚ map_to_list rn /\
      r = postProcess order ∅).
Proof.
  unfold mayReturn.
  destruct (getFileHashes c0 tp ps0) as [m|err] eqn:Hm.
  2:{ intros ->. left. by exists err. }
  intros (rn & order & Ht & Horder & ->).
  eapply traverse_reached in Ht as (heap & Hr & Hpop); [|by apply reached_start].
  right. exists heap, rn, order. repeat split; [done|by apply Pop_None|done].
Qed.

Lemma elem_of_order (order : list (string * Node)) (rn : gmap string Node) p n :
  order ≡ₚ map_to_list rn -> (p, n) ∈ order <-> rn !! p = Some n.
Proof. intros ->. apply elem_of_map_to_list. Qed.

Lemma postProcess_order_Ok order (rn : gmap string Node) result :
  order ≡ₚ map_to_list rn ->
  postProcess order ∅ = Ok result ->
  (forall p cm, result !! p = Some cm <->
                exists n, rn !! p = Some n /\ CommitNode_Commit n = Ok cm) /\
  (forall p n, rn !! p = Some n -> is_Ok (CommitNode_Commit n)).
Proof.
  intros Horder Hpost. split.
  - intros p cm. rewrite (postProcess_Ok _ _ _ Hpost).
    + rewrite lookup_empty. split.
      * intros [?|(n & Hin & Hn)]; [done|]. exists n.
        by rewrite <- (elem_of_order order rn p n Horder).
      * intros (n & Hin & Hn). right. exists n.
        by rewrite (elem_of_order order rn p n Horder).
    + rewrite Horder. apply NoDup_fst_map_to_list.
    + intros. apply lookup_empty.
  - intros p n Hn. eapply postProcess_all_Ok; [done|].
    by apply (elem_of_order order rn p n Horder).
Qed.

Lemma postProcess_order_Err order (rn : gmap string Node) err :
  order ≡ₚ map_to_list rn ->
  postProcess order ∅ = Err err ->
  exists p n, rn !! p = Some n /\ CommitNode_Commit n = Err err.
Proof.
  intros Horder (p & n & Hin & Hn)%postProcess_Err.
  exists p, n. split; [|done]. by apply (elem_of_order order rn p n Horder).
Qed.

End Outcomes.

Section Independence.
Context {Node Tree Commit : Type} {store : ObjectStore Node Tree Commit}.
Context (frontier1 frontier2 : BinaryHeap (commitAndPaths Node) byCommitTime).

(** X5. Two calls on the same start commit and subtree agree whatever heap
    each of them uses (so whatever the order in which entries are popped),
    whatever the order and the repetitions of the requested paths, and
    whatever the order in which the post-processing loop ranges over
    [resultNodes]: both return the same mapping, or both fail.  When the
    tree of the start commit cannot be read they fail with that same error;
    which error of [Commit()] a failing post-processing returns is left
    open, as it depends on the order of the range. *)
Theorem result_independent_of_heap_and_order
    fuel1 fuel2 (c0 : Node) (tp : string) (ps ps' : list string) r1 r2 :
  (forall p, p ∈ ps <-> p ∈ ps') ->
  mayReturn (frontier := frontier1) fuel1 c0 tp ps r1 ->
  mayReturn (frontier := frontier2) fuel2 c0 tp ps' r2 ->
  (forall result, r1 = Ok result <-> r2 = Ok result) /\
  (forall err, getFileHashes c0 tp ps = Err err -> r1 = Err err /\ r2 = Err err).
Proof.
  intros Hsame H1 H2.
  pose proof (getFileHashes_ext c0 tp ps ps' Hsame) as Hfirst.
  apply mayReturn_cases in H1, H2.
  destruct H1 as [(e1 & He1 & ->)|(heap1 & rn1 & o1 & Hok1 & Hr1 & Hv1 & Ho1 & ->)],
           H2 as [(e2 & He2 & ->)|(heap2 & rn2 & o2 & Hok2 & Hr2 & Hv2 & Ho2 & ->)].
  - assert (e1 = e2) as <- by congruence. split; [done|].
    intros err Herr. rewrite He1 in Herr. by injection Herr as <-.
  - rewrite <- Hfirst, He1 in Hok2. done.
  - rewrite Hfirst, He2 in Hok1. done.
  - split.
    2:{ intros err Herr. by rewrite Herr in Hok1. }
    assert (rn1 = rn2) as <-.
    { apply map_eq. intros p. apply option_eq. intros n.
      rewrite (final_resultNodes (frontier := frontier1) _ _ _ _ _ _ _ Hr1 Hv1).
      rewrite (final_resultNodes (frontier := frontier2) _ _ _ _ _ _ _ Hr2 Hv2).
      by rewrite Hsame. }
    destruct (postProcess o1 ∅) as [m1|e1] eqn:Hp1,
             (postProcess o2 ∅) as [m2|e2] eqn:Hp2.
    + destruct (postProcess_order_Ok o1 rn1 m1 Ho1 Hp1) as [Hm1 _].
      destruct (postProcess_order_Ok o2 rn1 m2 Ho2 Hp2) as [Hm2 _].
      assert (m1 = m2) as <-; [|done].
      apply map_eq. intros p. apply option_eq. intros cm.
      by rewrite Hm1, Hm2.
    + destruct (postProcess_order_Ok o1 rn1 m1 Ho1 Hp1) as [_ Hall].
      destruct (postProcess_order_Err o2 rn1 e2 Ho2 Hp2) as (p & n & Hn & Herr).
      specialize (Hall p n Hn). by rewrite Herr in Hall.
    + destruct (postProcess_order_Ok o2 rn1 m2 Ho2 Hp2) as [_ Hall].
      destruct (postProcess_order_Err o1 rn1 e1 Ho1 Hp1) as (p & n & Hn & Herr).
      specialize (Hall p n Hn). by rewrite Herr in Hall.
    + done.
Qed.

End Independence.

(** ** The number of iterations *)

Section Cost.
Context {Node Tree Commit : Type} {store : ObjectStore Node Tree Commit}.
Context {frontier : BinaryHeap (commitAndPaths Node) byCommitTime}.

(** As for termination: a rank that decreases along parent edges and a bound
    on the number of parents. *)
Variables (rank : Node -> nat) (maxParents : nat).
Hypothesis parents_below :
  forall c i q, i < NumParents c -> ParentNode c i = Ok q -> rank q < rank c.
Hypothesis parents_bounded : forall c, NumParents c <= maxParents.

(** The iterations an entry can still cause: its own, and for each of its
    paths and each commit down its branch the entries pushed there. *)
Definition entryCost (e : commitAndPaths Node) : nat :=
  1 + maxParents * (length (paths e) * S (rank (commit e))).

Definition heapCost (l : list (commitAndPaths Node)) : nat :=
  sum_list_with entryCost l.

Lemma filter_complement_length {A} (P : A -> Prop) `{!forall x, Decision (P x)}
    (l : list A) :
  length (filter P l) + length (filter (fun x => ~ P x) l) = length l.
Proof.
  pose proof (filter_app_complement P l) as Hperm.
  apply Permutation_length in Hperm. by rewrite length_app in Hperm.
Qed.

Lemma parentEntries_paths_length hs hp (rem : list string) :
  sum_list_with (fun e : commitAndPaths Node => length (paths e))
                (parentEntries hs hp rem) <= length rem.
Proof.
  revert rem. induction hp as [|[q m] hp IH]; intros rem; [cbn; lia|].
  cbn [parentEntries sum_list_with paths].
  pose proof (filter_complement_length (fun p => hash_at m p = hash_at hs p) rem) as Hlen.
  destruct (filter (fun p => hash_at m p ≠ hash_at hs p) rem) as [|p' rem'] eqn:Hrest.
  - cbn in *. lia.
  - specialize (IH (p' :: rem')). lia.
Qed.

Lemma stepEntries_paths_length tp cur rn :
  sum_list_with (fun e : commitAndPaths Node => length (paths e))
                (stepEntries tp cur rn) <= length (paths cur).
Proof.
  unfold stepEntries.
  pose proof (parentEntries_paths_length (hashes cur) (stepHashed tp cur)
                (stepRemaining tp cur rn)) as Hsum.
  assert (length (stepRemaining tp cur rn) <= length (paths cur)) as Hrem
      by apply length_filter.
  destruct (stepRemaining tp cur rn); [cbn; lia|lia].
Qed.

Lemma heapCost_bound (l : list (commitAndPaths Node)) r :
  (forall e, e ∈ l -> rank (commit e) < r) ->
  heapCost l <= length l
                + maxParents * (r * sum_list_with (fun e => length (paths e)) l).
Proof.
  induction l as [|e l IH]; intros Hr; [cbn; lia|].
  cbn [heapCost sum_list_with length]. unfold entryCost at 1.
  pose proof (Hr e (list_elem_of_here _ _)) as He.
  assert (heapCost l <= length l
            + maxParents * (r * sum_list_with (fun e => length (paths e)) l)) as IH'.
  { apply IH. intros e' He'. by apply Hr, list_elem_of_further. }
  unfold heapCost in IH'.
  assert (length (paths e) * S (rank (commit e)) <= r * length (paths e)) by nia.
  nia.
Qed.

Lemma heapCost_stepEntries tp cur rn :
  heapCost (stepEntries tp cur rn) < entryCost cur.
Proof.
  destruct (stepEntries tp cur rn) as [|e0 l] eqn:Hse; [unfold entryCost; cbn; lia|].
  rewrite <- Hse.
  assert (forall e, e ∈ stepEntries tp cur rn -> rank (commit e) < rank (commit cur))
    as Hrank.
  { intros e (j & Hj & Hq & _)%elem_of_stepEntries. by eapply parents_below. }
  pose proof (heapCost_bound _ _ Hrank) as Hcost.
  pose proof (stepEntries_length tp cur rn) as Hlen.
  pose proof (parents_bounded (commit cur)) as Hb.
  pose proof (stepEntries_paths_length tp cur rn) as Hsum.
  assert (1 <= length (paths cur)) as Hk.
  { assert (e0 ∈ stepEntries tp cur rn) as He0 by (rewrite Hse; apply list_elem_of_here).
    unfold stepEntries in He0.
    destruct (stepRemaining tp cur rn) as [|p rem] eqn:Hrem;
      [by apply elem_of_nil in He0|].
    assert (p ∈ stepRemaining tp cur rn) as Hp by (rewrite Hrem; apply list_elem_of_here).
    apply stepRemaining_elem in Hp as (Hp & _).
    destruct (paths cur); [by apply elem_of_nil in Hp|cbn; lia]. }
  unfold entryCost. nia.
Qed.

Lemma traverse_within_cost tp fuel heap rn :
  heapCost (Values heap) < fuel -> exists rn', traverse fuel tp heap rn = Some rn'.
Proof.
  revert heap rn. induction fuel as [|fuel IH]; intros heap rn Hw; [lia|].
  cbn [traverse]. destruct (Pop heap) as [[cur heap']|] eqn:Hpop; [|by eexists].
  destruct (iteration_spec tp cur heap' rn) as [_ Hvals].
  destruct (iteration tp cur heap' rn) as [heap'' rn'']. cbn [fst] in Hvals.
  apply IH. unfold heapCost in *.
  rewrite Hvals, sum_list_with_app.
  rewrite (Pop_Some _ _ _ Hpop) in Hw. cbn [sum_list_with] in Hw.
  pose proof (heapCost_stepEntries tp cur rn). unfold heapCost in *. lia.
Qed.

Lemma call_within_cost c0 tp ps0 :
  exists r,
    getLastCommitForPaths (2 + maxParents * (length ps0 * S (rank c0))) c0 tp ps0
    = Some r.
Proof.
  unfold getLastCommitForPaths.
  destruct (getFileHashes c0 tp ps0) as [m|err]; [|by eexists].
  set (heap0 := Push {| commit := c0; paths := ps0; hashes := m |} NewWith).
  destruct (traverse_within_cost tp (2 + maxParents * (length ps0 * S (rank c0)))
              heap0 ∅) as [rn ->]; [|by eexists].
  unfold heap0, heapCost. rewrite Values_Push, Values_NewWith.
  unfold entryCost. cbn. lia.
Qed.

(** X6. On a graph with a rank and at most [maxParents] parents per commit,
    the loop ends within [1 + maxParents * |paths| * (rank start + 1)]
    iterations: that many iterations and the final empty [Pop] are enough
    for the call to return. *)
Theorem iterations_bounded_by_paths_and_depth c0 tp ps0 :
  exists r,
    getLastCommitForPaths (2 + maxParents * (length ps0 * S (rank c0))) c0 tp ps0
    = Some r.
Proof. apply call_within_cost. Qed.

(** X7. Failures while loading parents or reading their trees never make
    the call fail: when the tree of the start commit can be read and the
    start commit and its ancestors can be turned into commits, the call
    returns a mapping, whatever [ParentNode] and the trees of the other
    commits answer. *)
Theorem parent_failures_are_tolerated c0 tp ps0 :
  is_Ok (getFileHashes c0 tp ps0) ->
  (forall n, ancestorOrSelf c0 n -> is_Ok (CommitNode_Commit n)) ->
  exists result,
    getLastCommitForPaths (2 + maxParents * (length ps0 * S (rank c0))) c0 tp ps0
    = Some (Ok result).
Proof.
  intros Hfirst Hcommit. destruct (call_within_cost c0 tp ps0) as [[result|err] Hr].
  { by exists result. }
  pose proof Hr as [Hm|(heap & rn & p & n & Hreach & Hn & Herr)]%getLastCommitForPaths_Err.
  - by rewrite Hm in Hfirst.
  - apply (reached_ancestors _ _ _ _ _ Hreach) in Hn.
    specialize (Hcommit n Hn). by rewrite Herr in Hcommit.
Qed.

End Cost.

(** ** What the reported commit holds *)

Section Content.
Context {Node Tree Commit : Type} {store : ObjectStore Node Tree Commit}.
Context {frontier : BinaryHeap (commitAndPaths Node) byCommitTime}.

Implicit Types (c q n : Node).
Implicit Types (tp p : string) (ps : list string).

Lemma branch_hashOf tp p h c n :
  hashOf tp c p = Ok h -> branch tp p h c n -> hashOf tp n p = Ok h.
Proof.
  intros Hc Hb. induction Hb as [c|c j q d (_ & _ & Hq & _) _ IH]; [done|].
  by apply IH.
Qed.

Lemma branch_ancestorOrSelf tp p h c n :
  branch tp p h c n -> ancestorOrSelf c n.
Proof.
  induction 1 as [c|c j q d (Hj & Hq & _) _ IH]; [constructor|].
  by apply (ancestor_parent c j q d).
Qed.

(** X14. The commit a call reports for a path is the commit of an ancestor
    (or of the start commit itself) at which the path has the very hash it
    has at the start commit: between the start commit and the reported one
    the path is unchanged, and this also holds for a path that is absent at
    both (the zero hash). *)
Theorem reported_commit_has_start_hash fuel c0 tp ps0 result p cm :
  getLastCommitForPaths fuel c0 tp ps0 = Some (Ok result) ->
  result !! p = Some cm ->
  exists n h,
    CommitNode_Commit n = Ok cm /\ ancestorOrSelf c0 n /\
    hashOf tp c0 p = Ok h /\ hashOf tp n p = Ok h.
Proof.
  intros Hcall Hcm.
  apply (call_result_lookup _ _ _ _ _ _ _ Hcall) in Hcm
    as (_ & n & (h & Hh & Hb & _) & Hn).
  exists n, h. repeat split; [done| |done|].
  - by apply (branch_ancestorOrSelf tp p h).
  - by apply (branch_hashOf tp p h c0).
Qed.

End Content.

(** ** Go's [strings] package

    The functions of the standard library that the request handlers use, on
    Go strings (sequences of bytes), written as the library defines them:
    with [len] and slices. *)

Module strings.

(** [s[n:]] and [s[:n]], for [n <= len(s)]. *)
Fixpoint from (n : nat) (s : string) : string :=
  match n, s with
  | S n', String _ s' => from n' s'
  | _, _ => s
  end.

Fixpoint upto (n : nat) (s : string) : string :=
  match n, s with
  | S n', String a s' => String a (upto n' s')
  | _, _ => EmptyString
  end.

(** [len(s) >= len(prefix) && s[:len(prefix)] == prefix] *)
Definition HasPrefix (s prefix : string) : bool :=
  (String.length prefix <=? String.length s)
  && String.eqb (upto (String.length prefix) s) prefix.

(** [len(s) >= len(suffix) && s[len(s)-len(suffix):] == suffix] *)
Definition HasSuffix (s suffix : string) : bool :=
  (String.length suffix <=? String.length s)
  && String.eqb (from (String.length s - String.length suffix) s) suffix.

Definition TrimPrefix (s prefix : string) : string :=
  if HasPrefix s prefix then from (String.length prefix) s else s.

Definition TrimSuffix (s suffix : string) : string :=
  if HasSuffix s suffix then upto (String.length s - String.length suffix) s else s.

(** The index of the first instance of [sep] in [s], if any. *)
Fixpoint Index (s sep : string) : option nat :=
  if HasPrefix s sep then Some 0
  else match s with
       | EmptyString => None
       | String _ s' => S <$> Index s' sep
       end.

(** [Cut] slices [s] around the first instance of [sep]. *)
Definition Cut (s sep : string) : string * string * bool :=
  match Index s sep with
  | Some i => (upto i s, from (i + String.length sep) s, true)
  | None => (s, EmptyString, false)
  end.

Lemma append_cons a s t : String a s +:+ t = String a (s +:+ t).
Proof. done. Qed.

Lemma append_nil_l t : "" +:+ t = t.
Proof. done. Qed.

Lemma append_nil_r s : s +:+ "" = s.
Proof. induction s as [|a s IH]; [done|]. by rewrite append_cons, IH. Qed.

Lemma append_assoc s t u : (s +:+ t) +:+ u = s +:+ t +:+ u.
Proof. induction s as [|a s IH]; [done|]. by rewrite !append_cons, IH. Qed.

Lemma length_append s t :
  String.length (s +:+ t) = String.length s + String.length t.
Proof. induction s as [|a s IH]; [done|]. rewrite append_cons. cbn. by rewrite IH. Qed.

Lemma upto_from n s : upto n s +:+ from n s = s.
Proof.
  revert s. induction n as [|n IH]; intros [|a s]; cbn; try done.
  by rewrite append_cons, IH.
Qed.

Lemma upto_append s t : upto (String.length s) (s +:+ t) = s.
Proof. induction s as [|a s IH]; [by destruct t|]. rewrite append_cons. cbn. by rewrite IH. Qed.

Lemma from_append s t : from (String.length s) (s +:+ t) = t.
Proof. induction s as [|a s IH]; [by destruct t|]. by rewrite append_cons. Qed.

Lemma length_upto n s : n <= String.length s -> String.length (upto n s) = n.
Proof.
  revert s. induction n as [|n IH]; intros [|a s]; cbn; try done; try lia.
  intros Hn. rewrite IH; lia.
Qed.

Lemma length_from n s : String.length (from n s) = String.length s - n.
Proof.
  revert s. induction n as [|n IH]; intros [|a s]; cbn; try done; try lia.
  all: try apply IH.
Qed.

Lemma HasPrefix_spec s prefix :
  HasPrefix s prefix = true <-> exists t, s = prefix +:+ t.
Proof.
  unfold HasPrefix. rewrite andb_true_iff, Nat.leb_le, String.eqb_eq. split.
  - intros [_ Hp]. exists (from (String.length prefix) s).
    transitivity (upto (String.length prefix) s +:+ from (String.length prefix) s).
    + by rewrite upto_from.
    + by rewrite Hp.
  - intros [t ->]. rewrite length_append, upto_append. split; [lia|done].
Qed.

Lemma HasSuffix_spec s suffix :
  HasSuffix s suffix = true <-> exists t, s = t +:+ suffix.
Proof.
  unfold HasSuffix. rewrite andb_true_iff, Nat.leb_le, String.eqb_eq. split.
  - intros [_ Hp]. exists (upto (String.length s - String.length suffix) s).
    transitivity (upto (String.length s - String.length suffix) s
                  +:+ from (String.length s - String.length suffix) s).
    + by rewrite upto_from.
    + by rewrite Hp.
  - intros [t ->]. rewrite length_append.
    replace (String.length t + String.length suffix - String.length suffix)
      with (String.length t) by lia.
    rewrite from_append. split; [lia|done].
Qed.

Lemma TrimPrefix_append prefix t : TrimPrefix (prefix +:+ t) prefix = t.
Proof.
  unfold TrimPrefix.
  rewrite (proj2 (HasPrefix_spec _ _)) by by exists t. apply from_append.
Qed.

Lemma TrimSuffix_append t suffix : TrimSuffix (t +:+ suffix) suffix = t.
Proof.
  unfold TrimSuffix.
  rewrite (proj2 (HasSuffix_spec _ _)) by by exists t.
  rewrite length_append.
  replace (String.length t + String.length suffix - String.length suffix)
    with (String.length t) by lia.
  apply upto_append.
Qed.

Lemma TrimSuffix_restore s suffix :
  HasSuffix s suffix = true -> TrimSuffix s suffix +:+ suffix = s.
Proof. intros [t ->]%HasSuffix_spec. by rewrite TrimSuffix_append. Qed.

Lemma TrimPrefix_restore s prefix :
  HasPrefix s prefix = true -> prefix +:+ TrimPrefix s prefix = s.
Proof. intros [t ->]%HasPrefix_spec. by rewrite TrimPrefix_append. Qed.

Lemma TrimSuffix_unchanged s suffix :
  HasSuffix s suffix = false -> TrimSuffix s suffix = s.
Proof. unfold TrimSuffix. by intros ->. Qed.

Lemma TrimPrefix_unchanged s prefix :
  HasPrefix s prefix = false -> TrimPrefix s prefix = s.
Proof. unfold TrimPrefix. by intros ->. Qed.


(** A byte that does not occur in [s] is not found, and the first
    occurrence of a byte is found where it is. *)
Lemma HasPrefix_byte a s c :
  HasPrefix (String a s) (String c "") = bool_decide (a = c).
Proof.
  unfold HasPrefix. cbn. destruct (Ascii.eqb_spec a c) as [->|Hne].
  - rewrite bool_decide_eq_true_2 by done. by destruct s.
  - rewrite bool_decide_eq_false_2 by done. by destruct s.
Qed.

Lemma Index_byte_None s c :
  c ∉ String.list_ascii_of_string s -> Index s (String c "") = None.
Proof.
  induction s as [|a s IH]; intros Hc; [done|].
  cbn [Index]. rewrite HasPrefix_byte. cbn in Hc.
  apply not_elem_of_cons in Hc as [Hne Hc].
  rewrite bool_decide_eq_false_2 by done. by rewrite IH.
Qed.

Lemma Index_byte_first s c t :
  c ∉ String.list_ascii_of_string s ->
  Index (s +:+ String c t) (String c "") = Some (String.length s).
Proof.
  induction s as [|a s IH]; intros Hc.
  - rewrite append_nil_l. cbn [Index]. rewrite HasPrefix_byte.
    by rewrite bool_decide_eq_true_2.
  - rewrite append_cons. cbn [Index]. rewrite HasPrefix_byte. cbn in Hc.
    apply not_elem_of_cons in Hc as [Hne Hc].
    rewrite bool_decide_eq_false_2 by done. by rewrite IH.
Qed.

Lemma Cut_byte_found s c t :
  c ∉ String.list_ascii_of_string s ->
  Cut (s +:+ String c t) (String c "") = (s, t, true).
Proof.
  intros Hc. unfold Cut. rewrite Index_byte_first by done.
  rewrite upto_append. do 2 f_equal.
  change (String c t) with (String c "" +:+ t).
  rewrite <- append_assoc, <- length_append. apply from_append.
Qed.

Lemma Cut_byte_not_found s c :
  c ∉ String.list_ascii_of_string s -> Cut s (String c "") = (s, "", false).
Proof. intros Hc. unfold Cut. by rewrite Index_byte_None. Qed.

End strings.

(** ** [path/filepath]

    [filepath.Ext] with the path separator of a Unix server:

      for i := len(path) - 1; i >= 0 && !os.IsPathSeparator(path[i]); i-- {
          if path[i] == '.' { return path[i:] }
      }
      return "" *)

Module filepath.

Fixpoint ExtFrom (path : string) (n : nat) : string :=
  match n with
  | 0 => ""
  | S i =>
      match String.get i path with
      | Some c =>
          if Ascii.eqb c "/" then ""
          else if Ascii.eqb c "." then strings.from i path
          else ExtFrom path i
      | None => ""
      end
  end.

Definition Ext (path : string) : string := ExtFrom path (String.length path).

Lemma ExtFrom_git s :
  ExtFrom (s +:+ ".git") (String.length s + 4) = ".git".
Proof.
  replace (String.length s + 4) with (S (S (S (S (String.length s))))) by lia.
  cbn [ExtFrom].
  pose proof (String.append_correct2 s ".git" 3) as H3.
  pose proof (String.append_correct2 s ".git" 2) as H2.
  pose proof (String.append_correct2 s ".git" 1) as H1.
  pose proof (String.append_correct2 s ".git" 0) as H0.
  cbn in H3, H2, H1, H0. rewrite <- H3, <- H2, <- H1, <- H0.
  cbn. apply strings.from_append.
Qed.

Lemma Ext_git s : Ext (s +:+ ".git") = ".git".
Proof. unfold Ext. rewrite strings.length_append. apply ExtFrom_git. Qed.

End filepath.

(** ** The request handlers (git_server.go, git_browse.go) *)

(** What the handlers read of an [http.Request]: [r.URL.Path],
    [r.URL.Scheme], [r.Host], whether [r.TLS] is set,
    [r.Header.Get("Git-Protocol")] and [r.UserAgent()]. *)
Record Request := {
  URLPath : string;
  URLScheme : string;
  Host : string;
  TLS : bool;
  GitProtocol : string;
  UserAgent : string
}.

(** The fields of [GitServer] that routing reads; [repositories] is the list
    as [updateRepositories] left it. *)
Record GitServer := {
  Browse : bool;
  repositories : list string
}.

(** What [ServeHTTP] does with a request: one of the three handlers it
    forwards to, or the call [http.Redirect(w, r, url, code)], with the
    arguments it is given. *)
Inductive action :=
  | serveGitClient (repoPath : string)
  | Redirect (url : string) (code : nat)
  | serveGitBrowser (repoPath : string)
  | next.

Definition StatusPermanentRedirect : nat := 308.

(** Result of a [fs.WalkDirFunc]: [nil], [fs.SkipDir] or another error. *)
Inductive walkResult :=
  | WalkNil
  | SkipDir
  | WalkErr (e : error).

Section Handlers.
(** [filepath.Join], kept abstract: the handlers only pass its result on. *)
Variable Join : string -> string -> string.

(** [getRepoPath], after the replacer gave [root] and [updateRepositories]
    refreshed the list. *)
Fixpoint getRepoPath (root : string) (r : Request) (repos : list string)
    : result string :=
  match repos with
  | [] => Err (ErrOther "repo not found")
  | path :: repos' =>
      if strings.HasPrefix (strings.TrimPrefix (URLPath r) "/") path
      then Ok (Join root path +:+ ".git")
      else getRepoPath root r repos'
  end.

(** The function [updateRepositories] hands to [filepath.WalkDir]; the
    captured [newRepos] is passed in and returned. *)
Definition walkFn (root : string) (newRepos : list string)
    (path : string) (isDir : bool) (err : option error)
    : list string * walkResult :=
  match err with
  | Some e => (newRepos, WalkErr e)
  | None =>
      if isDir && String.eqb (filepath.Ext path) ".git" then
        let path := strings.TrimPrefix path root in
        let path := strings.TrimPrefix path "/" in
        let path := strings.TrimSuffix path ".git" in
        (newRepos ++ [path], SkipDir)
      else (newRepos, WalkNil)
  end.

(** [ServeHTTP]: which handler gets the request. *)
Definition ServeHTTP (gsrv : GitServer) (root : string) (r : Request) : action :=
  match getRepoPath root r (repositories gsrv) with
  | Ok repoPath =>
      if negb (String.eqb (GitProtocol r) "")
         || strings.HasPrefix (UserAgent r) "git"
      then serveGitClient repoPath
      else if Browse gsrv then
        let requestPath := strings.TrimSuffix (URLPath r) "/" in
        if strings.HasSuffix requestPath ".git"
        then Redirect (strings.TrimSuffix requestPath ".git")
                      StatusPermanentRedirect
        else serveGitBrowser repoPath
      else next
  | Err _ => next
  end.

(** [serveGitBrowser]: the repository's URL prefix, the page name and the
    clone URL. *)
Definition pfx (root repoPath : string) : string :=
  strings.TrimPrefix
    (strings.TrimSuffix (strings.TrimPrefix repoPath root) ".git") "/".

Definition pageName (root repoPath : string) (r : Request) : string :=
  let '(pageName, _, defined) :=
    strings.Cut
      (strings.TrimPrefix
         (strings.TrimPrefix (strings.TrimPrefix (URLPath r) "/")
            (pfx root repoPath)) "/") "/" in
  if negb defined && String.eqb pageName "" then "home" else pageName.

Definition scheme (r : Request) : string :=
  if String.eqb (URLScheme r) "" then
    if TLS r then "https" else "http"
  else URLScheme r.

Definition cloneUrl (root repoPath : string) (r : Request) : string :=
  scheme r +:+ "://" +:+ Host r +:+ "/" +:+ pfx root repoPath +:+ ".git".

(** The first name of a list that is a prefix of the request path. *)
Definition firstPrefix (repos : list string) (s : string) (i : nat)
    (path : string) : Prop :=
  repos !! i = Some path /\ strings.HasPrefix s path = true /\
  forall k path', k < i -> repos !! k = Some path' ->
    strings.HasPrefix s path' = false.

Lemma getRepoPath_Ok root r repos repoPath :
  getRepoPath root r repos = Ok repoPath <->
  exists i path,
    firstPrefix repos (strings.TrimPrefix (URLPath r) "/") i path /\
    repoPath = Join root path +:+ ".git".
Proof.
  induction repos as [|p repos IH]; cbn [getRepoPath].
  - split; [done|]. by intros (i & path & (Hi & _) & _).
  - destruct (strings.HasPrefix _ p) eqn:Hp.
    + split.
      * intros [= <-]. exists 0, p. repeat split; [done|]. intros; lia.
      * intros (i & path & (Hi & Hpath & Hfirst) & ->).
        destruct i as [|i].
        -- by injection Hi as ->.
        -- specialize (Hfirst 0 p). cbn in Hfirst.
           rewrite Hfirst in Hp; [done|lia|done].
    + rewrite IH. split.
      * intros (i & path & (Hi & Hpath & Hfirst) & ->).
        exists (S i), path. repeat split; [done..|].
        intros [|k] path' Hk Hk'.
        -- by injection Hk' as <-.
        -- apply (Hfirst k); [lia|done].
      * intros (i & path & (Hi & Hpath & Hfirst) & ->).
        destruct i as [|i].
        -- injection Hi as ->. congruence.
        -- exists i, path. repeat split; [done..|].
           intros k path' Hk Hk'. apply (Hfirst (S k)); [lia|done].
Qed.

Lemma getRepoPath_Err root r repos e :
  getRepoPath root r repos = Err e <->
  e = ErrOther "repo not found" /\
  forall path, path ∈ repos ->
    strings.HasPrefix (strings.TrimPrefix (URLPath r) "/") path = false.
Proof.
  induction repos as [|p repos IH]; cbn [getRepoPath].
  - split; [|by intros [-> _]]. intros [= <-]. split; [done|].
    by intros path ?%elem_of_nil.
  - destruct (strings.HasPrefix _ p) eqn:Hp.
    + split; [done|]. intros [_ H]. rewrite H in Hp; [done|]. left.
    + rewrite IH. split; intros [-> H]; (split; [done|]).
      * intros path [->|?]%elem_of_cons; auto.
      * intros path ?. apply H. by right.
Qed.

Lemma getRepoPath_app root r repos later repoPath :
  getRepoPath root r repos = Ok repoPath ->
  getRepoPath root r (repos ++ later) = Ok repoPath.
Proof.
  induction repos as [|p repos IH]; cbn [getRepoPath app]; [done|].
  by destruct (strings.HasPrefix _ p).
Qed.

Lemma getRepoPath_skip root r repos later :
  (forall path, path ∈ repos ->
    strings.HasPrefix (strings.TrimPrefix (URLPath r) "/") path = false) ->
  getRepoPath root r (repos ++ later) = getRepoPath root r later.
Proof.
  induction repos as [|p repos IH]; intros H; [done|].
  cbn [getRepoPath app]. rewrite H by left. apply IH.
  intros path ?. apply H. by right.
Qed.

Lemma HasPrefix_append s t : strings.HasPrefix (s +:+ t) s = true.
Proof. apply strings.HasPrefix_spec. by exists t. Qed.

Lemma HasSuffix_append s t : strings.HasSuffix (s +:+ t) t = true.
Proof. apply strings.HasSuffix_spec. by exists s. Qed.

Lemma HasPrefix_extend s t p :
  strings.HasPrefix s p = true -> strings.HasPrefix (s +:+ t) p = true.
Proof.
  intros [u ->]%strings.HasPrefix_spec. apply strings.HasPrefix_spec.
  exists (u +:+ t). by rewrite strings.append_assoc.
Qed.

Lemma HasSuffix_git_slash s : strings.HasSuffix (s +:+ ".git") "/" = false.
Proof.
  unfold strings.HasSuffix.
  change (s +:+ ".git") with (s +:+ (".gi" +:+ "t")).
  rewrite <- strings.append_assoc, strings.length_append.
  replace (String.length (s +:+ ".gi") + String.length "t" - String.length "/")
    with (String.length (s +:+ ".gi")) by (cbn; lia).
  rewrite strings.from_append. cbn. apply andb_false_r.
Qed.

Lemma pfx_of_repository root name :
  pfx root (root +:+ "/" +:+ name +:+ ".git") = name.
Proof.
  unfold pfx. rewrite strings.TrimPrefix_append.
  change ("/" +:+ name +:+ ".git") with (("/" +:+ name) +:+ ".git").
  rewrite strings.TrimSuffix_append. apply strings.TrimPrefix_append.
Qed.

Lemma path_assoc root name :
  root +:+ "/" +:+ name +:+ ".git" = (root +:+ "/" +:+ name) +:+ ".git".
Proof. by rewrite strings.append_assoc. Qed.

Lemma walkFn_repository root newRepos name :
  walkFn root newRepos (root +:+ "/" +:+ name +:+ ".git") true None
  = (newRepos ++ [name], SkipDir).
Proof.
  unfold walkFn. rewrite (path_assoc root name), filepath.Ext_git.
  cbn [andb String.eqb Ascii.eqb Bool.eqb].
  rewrite <- (path_assoc root name), strings.TrimPrefix_append.
  change ("/" +:+ name +:+ ".git") with ("/" +:+ (name +:+ ".git")).
  by rewrite strings.TrimPrefix_append, strings.TrimSuffix_append.
Qed.

Lemma length_TrimSuffix s suffix :
  String.length (strings.TrimSuffix s suffix) <= String.length s.
Proof.
  unfold strings.TrimSuffix. destruct (strings.HasSuffix s suffix); [|done].
  rewrite strings.length_upto; lia.
Qed.

Lemma firstPrefix_getRepoPath root r repos i path :
  firstPrefix repos (strings.TrimPrefix (URLPath r) "/") i path ->
  getRepoPath root r repos = Ok (Join root path +:+ ".git").
Proof. intros H. apply getRepoPath_Ok. by exists i, path. Qed.

Lemma firstPrefix_shorter repos s t i path :
  firstPrefix repos (s +:+ t) i path ->
  strings.HasPrefix s path = true ->
  firstPrefix repos s i path.
Proof.
  intros (Hi & _ & Hfirst) Hp. repeat split; [done..|].
  intros k path' Hk Hk'. specialize (Hfirst k path' Hk Hk').
  destruct (strings.HasPrefix s path') eqn:E; [|done].
  by rewrite (HasPrefix_extend s t path' E) in Hfirst.
Qed.

(** X8. [getRepoPath] answers with the first listed repository whose name is
    a prefix of the request path without its leading slash, as the directory
    [Join root name] followed by [.git]; it fails, with [repo not found],
    exactly when no listed name is such a prefix.  The test is on the bytes
    of the path, not on its segments. *)
Theorem getRepoPath_first_prefix root r repos :
  match getRepoPath root r repos with
  | Ok repoPath =>
      exists i path,
        firstPrefix repos (strings.TrimPrefix (URLPath r) "/") i path /\
        repoPath = Join root path +:+ ".git"
  | Err e =>
      e = ErrOther "repo not found" /\
      forall path, path ∈ repos ->
        strings.HasPrefix (strings.TrimPrefix (URLPath r) "/") path = false
  end.
Proof.
  destruct (getRepoPath root r repos) as [repoPath|e] eqn:E.
  - exact (proj1 (getRepoPath_Ok root r repos repoPath) E).
  - exact (proj1 (getRepoPath_Err root r repos e) E).
Qed.

(** X9. A directory [root/name.git] met by the walk is registered as [name]
    and not descended into; from then on a request for [/name] followed by
    anything is resolved to this very directory, whatever the walk registers
    later, when [Join root name] is [root/name] and none of the names
    registered before is a prefix of the requested path. *)
Theorem walked_repository_is_served root name rest newRepos later r :
  Join root name = root +:+ "/" +:+ name ->
  URLPath r = "/" +:+ name +:+ rest ->
  (forall path, path ∈ newRepos ->
     strings.HasPrefix (name +:+ rest) path = false) ->
  exists repos,
    walkFn root newRepos (root +:+ "/" +:+ name +:+ ".git") true None
      = (repos, SkipDir) /\
    getRepoPath root r (repos ++ later)
      = Ok (root +:+ "/" +:+ name +:+ ".git").
Proof.
  intros HJoin Hurl Hnew. exists (newRepos ++ [name]).
  split; [apply walkFn_repository|].
  assert (strings.TrimPrefix (URLPath r) "/" = name +:+ rest) as Htrim.
  { rewrite Hurl. apply (strings.TrimPrefix_append "/"). }
  rewrite <- app_assoc, getRepoPath_skip by by rewrite Htrim.
  cbn [app getRepoPath]. rewrite Htrim, HasPrefix_append, HJoin.
  by rewrite <- !strings.append_assoc.
Qed.

(** X10. When [ServeHTTP] calls [http.Redirect(w, r, url, code)], the
    request is not from a git client (no [Git-Protocol] header, user agent
    not starting with [git]), browsing is enabled and the path resolves to a
    repository; [code] is 308, and the [url] argument is the request path
    without one trailing slash and without the [.git] it then ends in, so at
    least four bytes shorter than the request path.  This is about the
    argument of the call: what [net/http] makes of it for the [Location]
    header is not modelled. *)
Theorem redirect_strips_git_suffix gsrv root r url code :
  ServeHTTP gsrv root r = Redirect url code ->
  code = 308 /\
  strings.TrimSuffix (URLPath r) "/" = url +:+ ".git" /\
  String.length url + 4 <= String.length (URLPath r) /\
  Browse gsrv = true /\
  GitProtocol r = "" /\
  strings.HasPrefix (UserAgent r) "git" = false /\
  is_Ok (getRepoPath root r (repositories gsrv)).
Proof.
  unfold ServeHTTP.
  destruct (getRepoPath root r (repositories gsrv)) as [repoPath|e]; [|done].
  destruct (String.eqb_spec (GitProtocol r) "") as [Hgp|Hgp]; [|done].
  cbn [negb orb].
  destruct (strings.HasPrefix (UserAgent r) "git"); [done|].
  destruct (Browse gsrv); [|done].
  destruct (strings.HasSuffix _ ".git") eqn:Hgit; [|done].
  intros [= <- <-].
  pose proof (strings.TrimSuffix_restore _ _ Hgit) as Hrestore.
  repeat split; try done.
  pose proof (length_TrimSuffix (URLPath r) "/") as Hlen.
  rewrite <- Hrestore, strings.length_append in Hlen. cbn in Hlen. lia.
Qed.

(** X11. The page [serveGitBrowser] shows for the repository [root/name.git]:
    the URL [/name] gives [home]; [/name/page] gives [page], and [home] when
    [page] is empty; [/name/page/args] gives [page], also when [page] is
    empty.  Here [page] is any text without a slash. *)
Theorem pageName_of_url root name page args r :
  "/"%char ∉ String.list_ascii_of_string page ->
  let repoPath := root +:+ "/" +:+ name +:+ ".git" in
  (URLPath r = "/" +:+ name -> pageName root repoPath r = "home") /\
  (URLPath r = "/" +:+ name +:+ "/" +:+ page ->
     pageName root repoPath r = if String.eqb page "" then "home" else page) /\
  (URLPath r = "/" +:+ name +:+ "/" +:+ page +:+ "/" +:+ args ->
     pageName root repoPath r = page).
Proof.
  intros Hpage repoPath. unfold pageName, repoPath.
  rewrite pfx_of_repository. repeat split; intros ->.
  - rewrite (strings.TrimPrefix_append "/").
    rewrite <- (strings.append_nil_r name) at 1.
    by rewrite strings.TrimPrefix_append.
  - rewrite (strings.TrimPrefix_append "/"), strings.TrimPrefix_append,
      (strings.TrimPrefix_append "/").
    by rewrite strings.Cut_byte_not_found.
  - rewrite (strings.TrimPrefix_append "/"), strings.TrimPrefix_append,
      (strings.TrimPrefix_append "/").
    change ("/" +:+ args) with (String "/" args).
    by rewrite strings.Cut_byte_found.
Qed.

Lemma firstPrefix_clone_path repos name i :
  repos !! i = Some name ->
  (forall k path', k < i -> repos !! k = Some path' ->
     strings.HasPrefix (name +:+ ".git") path' = false) ->
  firstPrefix repos (name +:+ ".git") i name.
Proof. intros Hi Hfirst. repeat split; [done|apply HasPrefix_append|done]. Qed.

(** X12. The clone URL shown for a listed repository is scheme, host and
    the path [/name.git], and a git client that requests this path is
    handed to [serveGitClient] with the directory of the very repository the
    page was rendered for, when no name listed before is a prefix of
    [name.git] and [Join root name] is [root/name]. *)
Theorem clone_url_serves_repository gsrv root name i r rc :
  repositories gsrv !! i = Some name ->
  (forall k path', k < i -> repositories gsrv !! k = Some path' ->
     strings.HasPrefix (name +:+ ".git") path' = false) ->
  Join root name = root +:+ "/" +:+ name ->
  URLPath rc = "/" +:+ name +:+ ".git" ->
  GitProtocol rc <> "" \/ strings.HasPrefix (UserAgent rc) "git" = true ->
  let repoPath := Join root name +:+ ".git" in
  cloneUrl root repoPath r
    = scheme r +:+ "://" +:+ Host r +:+ URLPath rc /\
  ServeHTTP gsrv root rc = serveGitClient repoPath.
Proof.
  intros Hi Hfirst HJoin Hurl Hclient repoPath. split.
  - unfold cloneUrl, repoPath.
    rewrite HJoin, <- path_assoc, pfx_of_repository. by rewrite Hurl.
  - unfold ServeHTTP.
    rewrite (firstPrefix_getRepoPath root rc _ i name).
    + destruct Hclient as [Hgp| ->]; [|by rewrite orb_true_r].
      by destruct (String.eqb_spec (GitProtocol rc) "").
    + rewrite Hurl, (strings.TrimPrefix_append "/").
      by apply firstPrefix_clone_path.
Qed.

(** X13. A browser that requests [/name.git] of a listed repository is
    redirected (308) to [/name], and both paths resolve to the same
    directory [Join root name] followed by [.git], when no name listed
    before is a prefix of [name.git]. *)
Theorem browser_redirect_keeps_repository gsrv root name i rc rb :
  repositories gsrv !! i = Some name ->
  (forall k path', k < i -> repositories gsrv !! k = Some path' ->
     strings.HasPrefix (name +:+ ".git") path' = false) ->
  URLPath rc = "/" +:+ name +:+ ".git" ->
  GitProtocol rc = "" ->
  strings.HasPrefix (UserAgent rc) "git" = false ->
  Browse gsrv = true ->
  URLPath rb = "/" +:+ name ->
  ServeHTTP gsrv root rc = Redirect (URLPath rb) 308 /\
  getRepoPath root rb (repositories gsrv) = Ok (Join root name +:+ ".git") /\
  getRepoPath root rc (repositories gsrv) = Ok (Join root name +:+ ".git").
Proof.
  intros Hi Hfirst Hurl Hgp Hua Hbrowse Hb.
  assert (getRepoPath root rc (repositories gsrv)
          = Ok (Join root name +:+ ".git")) as Hrc.
  { apply (firstPrefix_getRepoPath root rc _ i name).
    rewrite Hurl, (strings.TrimPrefix_append "/").
    by apply firstPrefix_clone_path. }
  split; [|split; [|done]].
  - unfold ServeHTTP. rewrite Hrc, Hgp, Hua, Hbrowse. cbn [String.eqb negb orb].
    rewrite Hurl.
    change ("/" +:+ name +:+ ".git") with (("/" +:+ name) +:+ ".git").
    rewrite (strings.TrimSuffix_unchanged _ "/") by apply HasSuffix_git_slash.
    by rewrite HasSuffix_append, strings.TrimSuffix_append, Hb.
  - apply (firstPrefix_getRepoPath root rb _ i name).
    rewrite Hb, (strings.TrimPrefix_append "/").
    apply (firstPrefix_shorter _ name ".git"); [|].
    + by apply firstPrefix_clone_path.
    + rewrite <- (strings.append_nil_r name) at 1. apply HasPrefix_append.
Qed.

End Handlers.

(** ** More examples *)

Section MoreExamples.
Import Concrete.

(** In [repo_dirs] the tree of commit [0] has the file [README] and the
    directory [src] with the file [main.go]; it has no directory [lib]. *)
Definition dirs_root : exTree :=
  {| et_hash := 100%N; et_files := [("README", 7%N)];
     et_dirs := [("src", {| ed_hash := 50%N; ed_files := [("main.go", 8%N)] |})] |}.

Definition dirs_src : exTree :=
  {| et_hash := 50%N; et_files := [("main.go", 8%N)]; et_dirs := [] |}.

Lemma getFileHashes_contract_witness :
  (exists m, hashesAt repo_dirs 0 "src" [""; "main.go"; "README"] = Ok m /\
             m !! "" = Some 50%N /\ m !! "main.go" = Some 8%N /\
             m !! "README" = None) /\
  hashesAt repo_dirs 0 "lib" [""; "main.go"] = Ok ∅.
Proof.
  split.
  - destruct (proj1 (proj2 (getFileHashes_contract (store := exStore repo_dirs)
                              0 "src" [""; "main.go"; "README"]))
                dirs_root dirs_src eq_refl ltac:(discriminate) eq_refl)
      as (m & Hm & Hself & Hfound & Hnot & _).
    exists m. split; [exact Hm|].
    split; [apply Hself, list_elem_of_here|]. split.
    + apply (Hfound "main.go"
               {| Name := "main.go"; Mode := 33188%N; EntryHash := 8%N |}).
      * apply list_elem_of_further, list_elem_of_here.
      * discriminate.
      * reflexivity.
    + apply (Hnot "README" ErrEntryNotFound); [discriminate|reflexivity].
  - apply (proj1 (proj2 (proj2 (getFileHashes_contract
                                  (store := exStore repo_dirs)
                                  0 "lib" [""; "main.go"]))) dirs_root).
    + reflexivity.
    + discriminate.
    + reflexivity.
Defined.

Lemma result_is_end_of_branch_witness :
  exists n cm,
    resolvesTo (store := exStore repo_linear) "" 2 "b.txt" n /\
    CommitNode_Commit (ObjectStore := exStore repo_linear) n = Ok cm /\
    ({[ "a.txt" := 2; "b.txt" := 1 ]} : gmap string nat) !! "b.txt" = Some cm.
Proof.
  apply (result_is_end_of_branch (store := exStore repo_linear)
           (frontier := listHeap)
           3 2 "" ["a.txt"; "b.txt"] {[ "a.txt" := 2; "b.txt" := 1 ]} "b.txt").
  - vm_compute. reflexivity.
  - apply list_elem_of_further, list_elem_of_here.
Defined.

(** Two roots [0] and [1] and their merge [2]: of the merge, [x] is the [x]
    of the second parent, [z] the [z] of the first, and [y] is new. *)
Definition repo_fork : list exCommit :=
  [ {| ec_time := 10; ec_parents := [];
       ec_tree := file_tree 100%N [("x", 1%N); ("y", 1%N); ("z", 5%N)] |};
    {| ec_time := 20; ec_parents := [];
       ec_tree := file_tree 101%N [("x", 2%N); ("y", 1%N); ("z", 6%N)] |};
    {| ec_time := 30; ec_parents := [Ok 0; Ok 1];
       ec_tree := file_tree 102%N [("x", 2%N); ("y", 9%N); ("z", 5%N)] |} ].

(** The first entry of the call from the merge, and the state after the
    first iteration: [y] has its result, and the heap holds an entry for
    each parent. *)
Definition fork_start : commitAndPaths nat :=
  {| commit := 2; paths := ["x"; "y"; "z"];
     hashes := {[ "x" := 2%N; "y" := 9%N; "z" := 5%N ]} |}.

Definition fork_first : commitAndPaths nat :=
  {| commit := 0; paths := ["z"];
     hashes := {[ "x" := 1%N; "y" := 1%N; "z" := 5%N ]} |}.

Definition fork_second : commitAndPaths nat :=
  {| commit := 1; paths := ["x"];
     hashes := {[ "x" := 2%N; "y" := 1%N; "z" := 6%N ]} |}.

Definition fork_state : list (commitAndPaths nat) * gmap string nat :=
  iteration (store := exStore repo_fork) (frontier := listHeap) ""
            fork_start [] ∅.

(** After the first iteration of the call from the merge of [repo_fork],
    [y] is resolved and the heap holds [fork_first] and [fork_second];
    the entry popped next is [fork_second], with the path [x]. *)
Lemma popped_paths_are_unresolved_and_unshared_witness :
  (fork_state.1 = [fork_first; fork_second] /\
   fork_state.2 !! "y" = Some 2) /\
  fork_state.2 !! "x" = None /\
  forall e, e ∈ Values (BinaryHeap := listHeap (store := exStore repo_fork))
                       [fork_first]
            -> "x" ∉ paths e.
Proof.
  split; [split; vm_compute; reflexivity|].
  apply (popped_paths_are_unresolved_and_unshared (store := exStore repo_fork)
           (frontier := listHeap) 2 "" ["x"; "y"; "z"]
           fork_state.1 fork_state.2 fork_second [fork_first] "x").
  - apply (reached_iteration (store := exStore repo_fork) (frontier := listHeap)
             2 "" ["x"; "y"; "z"] [fork_start] ∅ fork_start []).
    + apply (reached_start (store := exStore repo_fork) (frontier := listHeap)
               2 "" ["x"; "y"; "z"] {[ "x" := 2%N; "y" := 9%N; "z" := 5%N ]}).
      vm_compute. reflexivity.
    + reflexivity.
  - vm_compute. reflexivity.
  - apply list_elem_of_here.
Defined.

Lemma same_paths_example p :
  p ∈ ["a.txt"; "b.txt"] <-> p ∈ ["b.txt"; "a.txt"; "b.txt"].
Proof. rewrite !elem_of_cons, !elem_of_nil. tauto. Qed.

Lemma getFileHashes_same_paths_witness :
  hashesAt repo_linear 2 "" ["a.txt"; "b.txt"]
  = hashesAt repo_linear 2 "" ["b.txt"; "a.txt"; "b.txt"].
Proof.
  apply (getFileHashes_same_paths (store := exStore repo_linear)
           2 "" ["a.txt"; "b.txt"] ["b.txt"; "a.txt"; "b.txt"]).
  apply same_paths_example.
Defined.

Lemma batch_agrees_with_single_witness :
  ({[ "a.txt" := 2; "b.txt" := 1 ]} : gmap string nat) !! "b.txt"
  = ({[ "b.txt" := 1 ]} : gmap string nat) !! "b.txt".
Proof.
  apply (batch_agrees_with_single (store := exStore repo_linear)
           (frontier := listHeap)
           3 3 2 "" ["a.txt"; "b.txt"] "b.txt").
  - vm_compute. reflexivity.
  - vm_compute. reflexivity.
  - apply list_elem_of_further, list_elem_of_here.
Defined.

Lemma result_independent_of_heap_and_order_witness :
  (forall result : gmap string nat,
     postProcess (store := exStore repo_linear) [("a.txt", 2); ("b.txt", 1)] ∅
       = Ok result <->
     postProcess (store := exStore repo_linear) [("b.txt", 1); ("a.txt", 2)] ∅
       = Ok result) /\
  (forall err, hashesAt repo_linear 2 "" ["a.txt"; "b.txt"] = Err err ->
     postProcess (store := exStore repo_linear) [("a.txt", 2); ("b.txt", 1)] ∅
       = Err err /\
     postProcess (store := exStore repo_linear) [("b.txt", 1); ("a.txt", 2)] ∅
       = Err err).
Proof.
  apply (result_independent_of_heap_and_order (store := exStore repo_linear)
           listHeap listHeap
           3 5 2 "" ["a.txt"; "b.txt"] ["b.txt"; "a.txt"; "b.txt"]).
  - apply same_paths_example.
  - exists {[ "a.txt" := 2; "b.txt" := 1 ]}, [("a.txt", 2); ("b.txt", 1)].
    split; [vm_compute; reflexivity|]. split; [|reflexivity].
    vm_compute. first [reflexivity | apply perm_swap].
  - exists {[ "a.txt" := 2; "b.txt" := 1 ]}, [("b.txt", 1); ("a.txt", 2)].
    split; [vm_compute; reflexivity|]. split; [|reflexivity].
    vm_compute. first [reflexivity | apply perm_swap].
Defined.

Lemma iterations_bounded_by_paths_and_depth_witness :
  exists r, lastCommit repo_merge (2 + 2 * (1 * 3)) 2 "" ["x"] = Some r.
Proof.
  apply (@iterations_bounded_by_paths_and_depth nat exTree nat
           (exStore repo_merge) listHeap
           (fun c => c) 2 merge_parents_below merge_parents_bounded 2 "" ["x"]).
Defined.

Lemma err_parents_below c i q :
  i < @NumParents nat exTree nat (exStore repo_err) c ->
  @ParentNode nat exTree nat (exStore repo_err) c i = Ok q -> q < c.
Proof.
  intros Hi Hq.
  destruct c as [|[|[|c]]]; destruct i as [|i];
    vm_compute in Hi; vm_compute in Hq; try lia; try discriminate Hq;
    injection Hq as <-; lia.
Qed.

Lemma err_parents_bounded c :
  @NumParents nat exTree nat (exStore repo_err) c <= 1.
Proof. destruct c as [|[|[|c]]]; vm_compute; lia. Qed.

Lemma err_ancestors_below c n :
  ancestorOrSelf (store := exStore repo_err) c n -> n <= c.
Proof.
  induction 1 as [c|c i q d Hi Hq _ IH]; [done|].
  pose proof (err_parents_below c i q Hi Hq). lia.
Qed.

(** In [repo_err] the tree of commit [0], the parent of [1], cannot be
    read; the call from [1] returns a mapping all the same. *)
Lemma parent_failures_are_tolerated_witness :
  hashesAt repo_err 0 "" ["a.txt"] = Err (ErrOther "i/o") /\
  exists result, lastCommit repo_err (2 + 1 * (1 * 2)) 1 "" ["a.txt"] = Some (Ok result).
Proof.
  split; [vm_compute; reflexivity|].
  apply (@parent_failures_are_tolerated nat exTree nat
           (exStore repo_err) listHeap
           (fun c => c) 1 err_parents_below err_parents_bounded 1 "" ["a.txt"]).
  - vm_compute. exact I.
  - intros n Hn%err_ancestors_below.
    destruct n as [|[|n]]; [vm_compute; exact I..|lia].
Defined.

Lemma reported_commit_has_start_hash_witness :
  exists n h,
    CommitNode_Commit (ObjectStore := exStore repo_linear) n = Ok 1 /\
    ancestorOrSelf (store := exStore repo_linear) 2 n /\
    hashOf (store := exStore repo_linear) "" 2 "b.txt" = Ok h /\
    hashOf (store := exStore repo_linear) "" n "b.txt" = Ok h.
Proof.
  apply (reported_commit_has_start_hash (store := exStore repo_linear)
           (frontier := listHeap)
           3 2 "" ["a.txt"; "b.txt"] {[ "a.txt" := 2; "b.txt" := 1 ]} "b.txt" 1).
  - vm_compute. reflexivity.
  - vm_compute. reflexivity.
Defined.

(** A server with root [/srv] and the repositories [other] and [proj]. *)
Definition exJoin (a b : string) : string := a +:+ "/" +:+ b.

Definition exServer : GitServer :=
  {| Browse := true; repositories := ["other"; "proj"] |}.

Definition exRequest (path gitProtocol userAgent : string) : Request :=
  {| URLPath := path; URLScheme := ""; Host := "example.org"; TLS := false;
     GitProtocol := gitProtocol; UserAgent := userAgent |}.

Lemma exServer_first k path' :
  k < 1 -> repositories exServer !! k = Some path' ->
  strings.HasPrefix ("proj" +:+ ".git") path' = false.
Proof.
  intros Hk Hpath. assert (k = 0) as -> by lia. by injection Hpath as <-.
Qed.

Lemma walked_repository_is_served_witness :
  exists repos,
    walkFn "/srv" ["other"] "/srv/proj.git" true None = (repos, SkipDir) /\
    getRepoPath exJoin "/srv" (exRequest "/proj/tree" "" "Mozilla/5.0")
                (repos ++ ["projects"])
    = Ok "/srv/proj.git".
Proof.
  apply (walked_repository_is_served exJoin "/srv" "proj" "/tree"
           ["other"] ["projects"] (exRequest "/proj/tree" "" "Mozilla/5.0")).
  - reflexivity.
  - reflexivity.
  - intros path [->|[]%elem_of_nil]%elem_of_cons. reflexivity.
Defined.

Lemma redirect_strips_git_suffix_witness :
  308 = 308 /\
  strings.TrimSuffix "/proj.git/" "/" = "/proj" +:+ ".git" /\
  String.length "/proj" + 4 <= String.length "/proj.git/" /\
  Browse exServer = true /\
  GitProtocol (exRequest "/proj.git/" "" "Mozilla/5.0") = "" /\
  strings.HasPrefix "Mozilla/5.0" "git" = false /\
  is_Ok (getRepoPath exJoin "/srv" (exRequest "/proj.git/" "" "Mozilla/5.0")
           (repositories exServer)).
Proof.
  apply (redirect_strips_git_suffix exJoin exServer "/srv"
           (exRequest "/proj.git/" "" "Mozilla/5.0") "/proj" 308).
  vm_compute. reflexivity.
Defined.

Lemma tree_has_no_slash : "/"%char ∉ String.list_ascii_of_string "tree".
Proof.
  cbn. intros H.
  repeat (apply elem_of_cons in H as [H|H]; [discriminate H|]).
  by apply elem_of_nil in H.
Qed.

Lemma pageName_of_url_witness :
  pageName "/srv" "/srv/proj.git" (exRequest "/proj/tree/src/main.go" "" "Mozilla/5.0")
  = "tree".
Proof.
  apply (proj2 (proj2 (pageName_of_url "/srv" "proj" "tree" "src/main.go"
                         (exRequest "/proj/tree/src/main.go" "" "Mozilla/5.0")
                         tree_has_no_slash))).
  reflexivity.
Defined.

Lemma clone_url_serves_repository_witness :
  cloneUrl "/srv" "/srv/proj.git" (exRequest "/proj" "" "Mozilla/5.0")
  = "http://example.org/proj.git" /\
  ServeHTTP exJoin exServer "/srv" (exRequest "/proj.git" "" "git/2.39.2")
  = serveGitClient "/srv/proj.git".
Proof.
  apply (clone_url_serves_repository exJoin exServer "/srv" "proj" 1
           (exRequest "/proj" "" "Mozilla/5.0")
           (exRequest "/proj.git" "" "git/2.39.2")).
  - reflexivity.
  - apply exServer_first.
  - reflexivity.
  - reflexivity.
  - right. reflexivity.
Defined.

Lemma browser_redirect_keeps_repository_witness :
  ServeHTTP exJoin exServer "/srv" (exRequest "/proj.git" "" "Mozilla/5.0")
  = Redirect "/proj" 308 /\
  getRepoPath exJoin "/srv" (exRequest "/proj" "" "Mozilla/5.0")
              (repositories exServer) = Ok "/srv/proj.git" /\
  getRepoPath exJoin "/srv" (exRequest "/proj.git" "" "Mozilla/5.0")
              (repositories exServer) = Ok "/srv/proj.git".
Proof.
  apply (browser_redirect_keeps_repository exJoin exServer "/srv" "proj" 1
           (exRequest "/proj.git" "" "Mozilla/5.0")
           (exRequest "/proj" "" "Mozilla/5.0")).
  - reflexivity.
  - apply exServer_first.
  - reflexivity.
  - reflexivity.
  - reflexivity.
  - reflexivity.
  - reflexivity.
Defined.

End MoreExamples.
